(** * generator-connection: a verification development

    A shallow embedding of [main.js] (the [domainPrefKey] helper) and of
    [lib/NodeDomain.js] (the domain proxy: readiness tracking, deferred
    command execution, reload after a connection close, event relays),
    together with the properties of both that the specification states.

    JavaScript objects with mutable fields become records threaded through
    the operations; operations that may throw return a [completion]; the
    closures that the source hands to [then], [catch] and [on] are
    defunctionalised into the inductive types [callback] and [listener]. *)

From Stdlib Require Import NArith ZArith Ascii String Decimal DecimalString DecimalN.
From stdpp Require Import base gmap strings list.

(** ** main.js *)

Module Main.

(** A JavaScript string is a sequence of UTF-16 code units; [charCodeAt]
    returns one of them as a number. *)
Definition jsstring := list N.

Definition of_ascii_string (s : string) : jsstring :=
  N_of_ascii <$> list_ascii_of_string s.

(** The arguments [domainPrefKey] may receive: the documented type is
    string; the guard [domainName && ...] also lets the falsy values
    through. *)
Inductive jsval :=
| JUndefined
| JNull
| JBool (b : bool)
| JString (s : jsstring).

(** ToBoolean. *)
Definition truthy (v : jsval) : bool :=
  match v with
  | JUndefined | JNull => false
  | JBool b => b
  | JString s => negb (bool_decide (s = []))
  end.

Inductive completion :=
| Normal (v : jsval)
| ThrowTypeError.

(** The character class [[a-zA-Z0-9]]. *)
Definition is_alnum (c : N) : bool :=
  ((97 <=? c) && (c <=? 122) || (65 <=? c) && (c <=? 90)
   || (48 <=? c) && (c <=? 57))%N.

(** The class of the source's regular expression, [[^a-zA-Z0-9]]. *)
Definition not_alnum (c : N) : bool := negb (is_alnum c).

(** Number-to-string conversion of a code unit, as performed by
    ["_" + char.charCodeAt(0) + "_"]. *)
Definition Number_toString (n : N) : jsstring :=
  of_ascii_string (NilEmpty.string_of_uint (N.to_uint n)).

(** [s.replace(re, f)] for a global regular expression [re] that is a
    single character class: every code unit in the class is replaced by
    the result of the replacer, the others are copied. *)
Fixpoint replace_g (cls : N -> bool) (f : N -> jsstring) (s : jsstring)
  : jsstring :=
  match s with
  | [] => []
  | c :: s' => (if cls c then f c else [c]) ++ replace_g cls f s'
  end.

Definition underscore : N := 95.

(** The replacer function of [domainPrefKey]. *)
Definition escape_char (char : N) : jsstring :=
  [underscore] ++ Number_toString char ++ [underscore].

Definition domainPrefKey (domainName : jsval) : completion :=
  if truthy domainName then
    match domainName with
    | JString s => Normal (JString (replace_g not_alnum escape_char s))
    | _ => ThrowTypeError (* [true.replace] is not a function *)
    end
  else Normal domainName.

(** What the claim calls "ASCII letters, digits and underscores". *)
Definition is_word_char (c : N) : bool :=
  is_alnum c || (c =? underscore)%N.

Definition is_digit (c : N) : bool := ((48 <=? c) && (c <=? 57))%N.

(** Appending one decimal digit character to a number. *)
Definition shift (acc c : N) : N := (10 * acc + (c - 48))%N.

(** The number a sequence of decimal digit characters denotes. *)
Definition decimal_value (s : jsstring) : N := foldl shift 0%N s.

Definition digits (d : Decimal.uint) : jsstring :=
  of_ascii_string (NilEmpty.string_of_uint d).

(** The image of one input character, in the claim's words. *)
Definition image (c : N) : jsstring :=
  if is_alnum c then [c] else [underscore] ++ Number_toString c ++ [underscore].

End Main.

(** ** Regular expressions

    The constructor of [NodeDomain] builds [new RegExp("^" + domainName + ":*")]
    and hands it to the Connection's [off].  The fragment of the pattern
    language modelled here is: an optional leading [^], then literal
    characters and [.], each optionally followed by [*].  Matching is
    JavaScript's: backtracking, greedy, and not anchored at the end.  A
    source outside the fragment is left to the regular expression engine
    of the host, which is a parameter. *)

Module Regex.

Inductive atom :=
| AChar (c : ascii)
| AAny.

(** An atom and whether it carries a star. *)
Definition item : Type := atom * bool.

(** A regular expression object: a pattern of the fragment, or one that
    the host compiled, known by its source and by the strings it matches. *)
Inductive regexp :=
| Pattern (anchored : bool) (items : list item)
| Native (source : string) (matches : string -> bool).

Definition metachars : list ascii :=
  list_ascii_of_string "\^$.*+?()[]{}|".

Definition dot : ascii := Ascii.ascii_of_nat 46.
Definition star : ascii := Ascii.ascii_of_nat 42.
Definition caret : ascii := Ascii.ascii_of_nat 94.

Definition atom_of (c : ascii) : option atom :=
  if bool_decide (c = dot) then Some AAny
  else if bool_decide (c ∈ metachars) then None
  else Some (AChar c).

Fixpoint parse_items (cs : list ascii) : option (list item) :=
  match cs with
  | [] => Some []
  | c :: rest =>
      match atom_of c with
      | None => None
      | Some a =>
          match rest with
          | q :: rest' =>
              if bool_decide (q = star)
              then cons (a, true) <$> parse_items rest'
              else cons (a, false) <$> parse_items rest
          | [] => Some [(a, false)]
          end
      end
  end.

(** The pattern that a source of the fragment denotes. *)
Definition parse (source : string) : option regexp :=
  match list_ascii_of_string source with
  | c :: rest =>
      if bool_decide (c = caret)
      then Pattern true <$> parse_items rest
      else Pattern false <$> parse_items (c :: rest)
  | [] => Some (Pattern false [])
  end.

(** [new RegExp(source)].  For a source outside the fragment the host's
    engine [compile] decides: it answers [None] when the constructor
    throws a SyntaxError, and otherwise tells which strings the pattern
    matches. *)
Definition RegExp (compile : string -> option (string -> bool))
    (source : string) : option regexp :=
  match parse source with
  | Some re => Some re
  | None => Native source <$> compile source
  end.

(** [.] matches every character but the line terminators. *)
Definition atom_matches (a : atom) (c : ascii) : bool :=
  match a with
  | AChar c' => bool_decide (c = c')
  | AAny => negb (bool_decide (c = Ascii.ascii_of_nat 10)
                  || bool_decide (c = Ascii.ascii_of_nat 13))
  end.

(** Greedy repetition of [a], then the continuation [k]. *)
Fixpoint match_star (a : atom) (k : list ascii -> bool) (s : list ascii) : bool :=
  match s with
  | c :: s' => (atom_matches a c && match_star a k s') || k s
  | [] => k []
  end.

(** Does a prefix of [s] match the items? *)
Fixpoint match_here (r : list item) : list ascii -> bool :=
  match r with
  | [] => fun _ => true
  | (a, true) :: r' => match_star a (match_here r')
  | (a, false) :: r' =>
      fun s => match s with
               | c :: s' => atom_matches a c && match_here r' s'
               | [] => false
               end
  end.

Fixpoint match_anywhere (r : list item) (s : list ascii) : bool :=
  match_here r s || match s with
                    | _ :: s' => match_anywhere r s'
                    | [] => false
                    end.

(** [re.test(s)]. *)
Definition test (re : regexp) (s : string) : bool :=
  match re with
  | Pattern true items => match_here items (list_ascii_of_string s)
  | Pattern false items => match_anywhere items (list_ascii_of_string s)
  | Native _ matches => matches s
  end.

(** A name without characters that mean something in a pattern. *)
Definition literal (s : string) : Prop :=
  Forall (fun c => c ∉ metachars) (list_ascii_of_string s).

(** The pattern [^name:*] for a literal name. *)
Definition prefix_pattern (name : string) : regexp :=
  Pattern true
    (((fun c => (AChar c, false)) <$> list_ascii_of_string name)
     ++ [(AChar (Ascii.ascii_of_nat 58), true)]).

End Regex.

(** ** lib/NodeDomain.js *)

Module Lib.

(** *** Values, promises and the job queue *)

#[local] Unset Elimination Schemes.
Inductive value :=
| VUndefined
| VBool (b : bool)
| VNum (n : Z)
| VStr (s : string)
| VArr (l : list value)
| VObj (fields : list (string * value))
| VError (name : string)
| VPromise (p : nat).
#[local] Set Elimination Schemes.

(** The closures of NodeDomain.js that are passed to [then] and [catch]. *)
Inductive callback :=
| load                        (* [this._load], bound in the constructor *)
| load_done                   (* the [then] callback of [_load] *)
| load_failed                 (* the [catch] callback of [_load] *)
| execConnected (name : string) (params : list value).

Inductive outcome :=
| Fulfilled (v : value)
| Rejected (e : value).

(** [p.then(on_fulfilled, on_rejected)] registers a reaction on [p]; its
    result is the promise [derived]. *)
Record reaction := {
  on_fulfilled : option callback;
  on_rejected : option callback;
  derived : nat
}.

Inductive pstate :=
| Pending (rs : list reaction)
| Settled (o : outcome).

(** A promise; [external] marks the futures that the Connection creates and
    settles itself (connect, loadDomains, reconnection, command results). *)
Record pcell := { state : pstate; external : bool }.

(** A promise job: run [handler] on [input] and resolve [target] with the
    result; without a handler the input is passed through. *)
Record job := {
  handler : option callback;
  input : outcome;
  target : nat
}.

(** What a command of the Connection's command table does when applied:
    throw, return a value, or send the request and return a fresh future
    that the Connection settles when the reply arrives. *)
Inductive cmd_result :=
| CmdThrows (e : value)
| CmdReturns (v : value)
| CmdRequest.

Definition callable : Type := list value -> cmd_result.

(** What [fn.apply(domain, params)] receives as [this]: a command table of
    the Connection, or a value that the tables inherit from
    [Object.prototype], known by a name. *)
Inductive receiver :=
| Table (d : gmap string callable)
| Builtin (b : string).

(** The built-ins of the JavaScript host that NodeDomain.js reaches and
    that are not modelled here; they are parameters of the model.

    [compile] is the regular expression engine for the sources outside the
    fragment of [Regex].  The tables of the Connection are ordinary
    objects: [inherited name] is the value that [o[name]] reads on such an
    object [o] that has no own property [name], and [member b name] is what
    [b[name]] reads on an inherited value [b]; both are [None] when the
    value read is [undefined] or otherwise falsy (what [Object.prototype]
    provides is functions and objects, all truthy).
    [apply_builtin b this params] is [b.apply(this, params)]: it throws a
    TypeError when [b] is no function.  [keys b] is [Object.keys(b)]. *)
Record Host := {
  compile : string -> option (string -> bool);
  inherited : string -> option string;
  member : string -> string -> option string;
  apply_builtin : string -> receiver -> callable;
  keys : string -> list string
}.

(** The listeners found on the Connection: the two closures that
    NodeDomain.js installs, and listeners of other clients. *)
Inductive listener :=
| close_handler
| relay (domainEvent : string)
| foreign (id : nat).

(** Modelled from the spec: the Connection collaborator (NodeConnection.js),
    reduced to the contract the proxy consumes: the [connected()] predicate,
    the mappings [domains] and [domainEvents] (the latter as the sequence
    that [Object.keys] returns), and the listener table of its
    publish/subscribe surface. *)
Record Connection := {
  is_connected : bool;
  domains : gmap string (gmap string callable);
  domainEvents : gmap string (list string);
  events : gmap string (list listener)
}.

(** Observable effects, in the order in which they happen. *)
Inductive effect :=
| Connect (autoReconnect : bool) (p : nat)
| LoadDomains (path : string) (autoReload : bool) (p : nat)
| Invoke (domain command : string) (params : list value)
| EmitEvent (evt : string) (args : list value)
| ConsoleError (domain : string) (err : value)
| ForeignCall (id : nat) (args : list value).

(** The proxy object, its Connection and the promise runtime. *)
Record World := {
  _domainName : string;
  _domainPath : string;
  _domainLoaded : bool;
  _connectionPromise : option nat;
  domainPrefix : Regex.regexp;
  connection : Connection;
  promises : list pcell;
  jobs : list job;
  trace : list effect;
  host : Host
}.

Definition set_loaded (b : bool) (w : World) : World :=
  Build_World (_domainName w) (_domainPath w) b (_connectionPromise w)
    (domainPrefix w) (connection w) (promises w) (jobs w) (trace w)
    (host w).

Definition set_connectionPromise (p : option nat) (w : World) : World :=
  Build_World (_domainName w) (_domainPath w) (_domainLoaded w) p
    (domainPrefix w) (connection w) (promises w) (jobs w) (trace w)
    (host w).

Definition set_connection (c : Connection) (w : World) : World :=
  Build_World (_domainName w) (_domainPath w) (_domainLoaded w)
    (_connectionPromise w) (domainPrefix w) c (promises w) (jobs w) (trace w)
    (host w).

Definition set_promises (ps : list pcell) (w : World) : World :=
  Build_World (_domainName w) (_domainPath w) (_domainLoaded w)
    (_connectionPromise w) (domainPrefix w) (connection w) ps (jobs w) (trace w)
    (host w).

Definition set_jobs (js : list job) (w : World) : World :=
  Build_World (_domainName w) (_domainPath w) (_domainLoaded w)
    (_connectionPromise w) (domainPrefix w) (connection w) (promises w) js (trace w)
    (host w).

Definition log (e : effect) (w : World) : World :=
  Build_World (_domainName w) (_domainPath w) (_domainLoaded w)
    (_connectionPromise w) (domainPrefix w) (connection w) (promises w) (jobs w)
    (trace w ++ [e]) (host w).

Definition set_events (t : gmap string (list listener)) (c : Connection) : Connection :=
  Build_Connection (is_connected c) (domains c) (domainEvents c) t.

(** *** Statements that may throw *)

Inductive completion (A : Type) :=
| Return (a : A) (w : World)
| Throw (e : value) (w : World).
Arguments Return {A} a w.
Arguments Throw {A} e w.

Definition M (A : Type) : Type := World -> completion A.

Definition ret {A} (a : A) : M A := fun w => Return a w.

Definition throw {A} (e : value) : M A := fun w => Throw e w.

Definition bind {A B} (m : M A) (k : A -> M B) : M B :=
  fun w => match m w with
           | Return a w' => k a w'
           | Throw e w' => Throw e w'
           end.

(** A statement that updates the state and cannot throw. *)
Definition update (f : World -> World) : M unit := fun w => Return () (f w).

Notation "'let*' x := m 'in' k" := (bind m (fun x => k))
  (at level 10, x name, m at level 200, k at level 200).

(** The state in which a statement leaves the world, thrown or not. *)
Definition world_of {A} (c : completion A) : World :=
  match c with
  | Return _ w => w
  | Throw _ w => w
  end.

(** *** Promises *)

Definition alloc (c : pcell) : M nat :=
  fun w => Return (length (promises w)) (set_promises (promises w ++ [c]) w).

(** [Promise.resolve()] and [Promise.reject()], called without argument. *)
Definition Promise_resolve : M nat :=
  alloc {| state := Settled (Fulfilled VUndefined); external := false |}.

Definition Promise_reject : M nat :=
  alloc {| state := Settled (Rejected VUndefined); external := false |}.

Definition job_of (o : outcome) (r : reaction) : job :=
  {| handler := match o with
                | Fulfilled _ => on_fulfilled r
                | Rejected _ => on_rejected r
                end;
     input := o;
     target := derived r |}.

(** Register a reaction: queued on a pending promise, scheduled as a job
    at once on a settled one. *)
Definition subscribe (p : nat) (r : reaction) (w : World) : World :=
  match promises w !! p with
  | Some c =>
      match state c with
      | Pending rs =>
          set_promises
            (<[p := {| state := Pending (rs ++ [r]); external := external c |}]>
               (promises w)) w
      | Settled o => set_jobs (jobs w ++ [job_of o r]) w
      end
  | None => w
  end.

(** [p.then(onF, onR)]; [p.catch(onR)] is [then_ p None (Some onR)]. *)
Definition then_ (p : nat) (onF onR : option callback) : M nat :=
  let* d := alloc {| state := Pending []; external := false |} in
  let* _ := update (subscribe p {| on_fulfilled := onF; on_rejected := onR;
                                   derived := d |}) in
  ret d.

(** Settle a pending promise and schedule its reactions; a settled promise
    stays as it is. *)
Definition settle (p : nat) (o : outcome) (w : World) : World :=
  match promises w !! p with
  | Some c =>
      match state c with
      | Pending rs =>
          set_jobs (jobs w ++ (job_of o <$> rs))
            (set_promises
               (<[p := {| state := Settled o; external := external c |}]>
                  (promises w)) w)
      | Settled _ => w
      end
  | None => w
  end.

(** Resolve [p] with the value a handler returned: a promise is followed,
    any other value fulfils [p]. *)
Definition resolve (p : nat) (v : value) (w : World) : World :=
  match v with
  | VPromise q =>
      if bool_decide (q = p)
      then settle p (Rejected (VError "TypeError")) w
      else subscribe q {| on_fulfilled := None; on_rejected := None; derived := p |} w
  | _ => settle p (Fulfilled v) w
  end.

(** *** The Connection's operations *)

(** Modelled from the spec: [getListeners(eventKey)], the sequence of
    listeners currently registered under the key. *)
Definition getListeners (key : string) (c : Connection) : list listener :=
  default [] (events c !! key).

(** Modelled from the spec: [on(eventKey, handler)] adds one listener under
    the key. *)
Definition on (key : string) (l : listener) (c : Connection) : Connection :=
  set_events (<[key := getListeners key c ++ [l]]> (events c)) c.

(** Modelled from the spec: [off(pattern)], the bulk unsubscription: every
    listener under a key that the pattern matches is removed. *)
Definition off (re : Regex.regexp) (c : Connection) : Connection :=
  set_events (filter (fun kv => Regex.test re kv.1 = false) (events c)) c.

(** Modelled from the spec: [connected()]. *)
Definition connected (c : Connection) : bool := is_connected c.

(** Modelled from the spec: [connect(autoReconnect)] returns a future that
    the Connection settles later. *)
Definition connect (autoReconnect : bool) : M nat :=
  let* p := alloc {| state := Pending []; external := true |} in
  let* _ := update (log (Connect autoReconnect p)) in
  ret p.

(** Modelled from the spec: [loadDomains(path, autoReload)] returns a
    future that the Connection settles later. *)
Definition loadDomains (path : string) (autoReload : bool) : M nat :=
  let* p := alloc {| state := Pending []; external := true |} in
  let* _ := update (log (LoadDomains path autoReload p)) in
  ret p.

(** Modelled from the spec: a Connection that was just created. *)
Definition new_NodeConnection : Connection :=
  {| is_connected := false; domains := ∅; domainEvents := ∅; events := ∅ |}.

(** *** The methods of NodeDomain *)

(** The namespaced key of an event of the domain. *)
Definition event_key (domainName domainEvent : string) : string :=
  domainName +:+ ":" +:+ domainEvent.

(** The body of the [forEach] callback of [refreshInterface]. *)
Definition refresh_event (domainName : string) (c : Connection)
    (domainEvent : string) : Connection :=
  let connectionEvent := event_key domainName domainEvent in
  let listeners := getListeners connectionEvent c in
  if bool_decide (length listeners = 0)
  then on connectionEvent (relay domainEvent) c
  else c.

(** [connection.domainEvents[this._domainName]]: the events that the
    Connection lists for the domain, or what the object inherits under that
    name; [None] when the value read is [undefined]. *)
Definition events_of (w : World) : option (list string) :=
  match domainEvents (connection w) !! _domainName w with
  | Some eventNames => Some eventNames
  | None => keys (host w) <$> inherited (host w) (_domainName w)
  end.

(** [Object.keys] throws a TypeError when the Connection lists no events
    for the domain at all. *)
Definition refreshInterface : M unit :=
  fun w =>
    match events_of w with
    | None => Throw (VError "TypeError") w
    | Some eventNames =>
        Return () (set_connection
                     (foldl (refresh_event (_domainName w)) (connection w) eventNames)
                     w)
    end.

Definition ready (w : World) : bool :=
  _domainLoaded w && connected (connection w).

Definition promise : M nat :=
  fun w =>
    match _connectionPromise w with
    | Some p => Return p w
    | None => if ready w then Promise_resolve w else Promise_reject w
    end.

(** [fn.apply(domain, params)]. *)
Definition apply_command (domain name : string) (fn : callable)
    (params : list value) : M value :=
  let* _ := update (log (Invoke domain name params)) in
  match fn params with
  | CmdThrows e => throw e
  | CmdReturns v => ret v
  | CmdRequest =>
      let* p := alloc {| state := Pending []; external := true |} in
      ret (VPromise p)
  end.

(** [connection.domains[this._domainName]]; [None] when the value read is
    falsy.  The own entries of [domains] are the command tables; any other
    name reads what the object inherits. *)
Definition domain_of (w : World) : option receiver :=
  match domains (connection w) !! _domainName w with
  | Some d => Some (Table d)
  | None => Builtin <$> inherited (host w) (_domainName w)
  end.

(** [domain[name]], as the function that [fn.apply(domain, params)] runs;
    [None] when the value read is falsy.  An own entry of a command table
    is a command; any other name reads what the table inherits. *)
Definition property_of (h : Host) (domain : receiver) (name : string)
    : option callable :=
  match domain with
  | Table d =>
      match d !! name with
      | Some f => Some f
      | None => (fun b => apply_builtin h b domain) <$> inherited h name
      end
  | Builtin b => (fun b' => apply_builtin h b' domain) <$> member h b name
  end.

(** The body of the closure [execConnected] of [exec]. *)
Definition run_execConnected (name : string) (params : list value) : M value :=
  fun w =>
    let domain := domain_of w in
    let fn := domain ≫= (fun d => property_of (host w) d name) in
    match fn with
    | Some f => apply_command (_domainName w) name f params w
    | None => (let* p := Promise_reject in ret (VPromise p)) w
    end.

Definition exec (name : string) (params : list value) : M value :=
  fun w =>
    if ready w then run_execConnected name params w
    else
      match _connectionPromise w with
      | Some p =>
          (let* r := then_ p (Some (execConnected name params)) None in
           ret (VPromise r)) w
      | None => (let* r := Promise_reject in ret (VPromise r)) w
      end.

Definition _load : M value :=
  fun w =>
    (let* l := loadDomains (_domainPath w) true in
     let* p1 := then_ l (Some load_done) None in
     let* p2 := then_ p1 None (Some load_failed) in
     ret (VPromise p2)) w.

(** Calling one of the closures with the value its promise settled with. *)
Definition call (k : callback) (arg : value) : M value :=
  match k with
  | load => _load
  | load_done =>
      let* _ := update (set_loaded true) in
      let* _ := update (set_connectionPromise None) in
      let* _ := refreshInterface in
      ret VUndefined
  | load_failed =>
      fun w => Return VUndefined (log (ConsoleError (_domainName w) arg) w)
  | execConnected name params => run_execConnected name params
  end.

Definition outcome_value (o : outcome) : value :=
  match o with
  | Fulfilled v => v
  | Rejected e => e
  end.

Definition run_job (j : job) (w : World) : World :=
  match handler j with
  | None =>
      match input j with
      | Fulfilled v => resolve (target j) v w
      | Rejected e => settle (target j) (Rejected e) w
      end
  | Some k =>
      match call k (outcome_value (input j)) w with
      | Return v w' => resolve (target j) v w'
      | Throw e w' => settle (target j) (Rejected e) w'
      end
  end.

(** The listener that the constructor registers for [close]. *)
Definition on_close (args : list value) : M unit :=
  let* _ := update (fun w => set_connection (off (domainPrefix w) (connection w)) w) in
  let* _ := update (set_loaded false) in
  match args with
  | VPromise p :: _ =>
      let* q := then_ p (Some load) None in
      update (set_connectionPromise (Some q))
  | _ => throw (VError "TypeError")
  end.

(** [this.emitEvent(domainEvent, params)] on the proxy's own emitter. *)
Definition emitEvent (evt : string) (args : list value) : M unit :=
  update (log (EmitEvent evt args)).

Definition call_listener (l : listener) (args : list value) : M unit :=
  match l with
  | close_handler => on_close args
  | relay domainEvent => emitEvent domainEvent args
  | foreign id => update (log (ForeignCall id args))
  end.

Fixpoint call_all (ls : list listener) (args : list value) : M unit :=
  match ls with
  | [] => ret ()
  | l :: ls' => let* _ := call_listener l args in call_all ls' args
  end.

(** Modelled from the spec: the Connection fires the event [key]: the
    listeners registered under the key are called in turn with [args]. *)
Definition emit (key : string) (args : list value) : M unit :=
  fun w => call_all (getListeners key (connection w)) args w.

(** The constructor, on the host [h]; [None] when [new RegExp] throws. *)
Definition NodeDomain (h : Host) (domainName domainPath : string)
    : option World :=
  match Regex.RegExp (compile h) ("^" +:+ domainName +:+ ":*") with
  | None => None
  | Some re =>
      let this :=
        {| _domainName := domainName; _domainPath := domainPath;
           _domainLoaded := false; _connectionPromise := None;
           domainPrefix := re; connection := new_NodeConnection;
           promises := []; jobs := []; trace := []; host := h |} in
      Some (world_of
              ((let* c := connect true in
                let* p := then_ c (Some load) None in
                let* _ := update (set_connectionPromise (Some p)) in
                update (fun w => set_connection
                                   (on "close" close_handler (connection w)) w))
                 this))
  end.

(** *** The event loop

    What can happen to a proxy: its clients call its methods, the event
    loop runs a promise job, and the Connection settles its futures, fires
    events and changes its tables. *)

Inductive action :=
| call_ready
| call_promise
| call_exec (name : string) (params : list value)
| call_refreshInterface
| tick
| env_future
| env_settle (p : nat) (o : outcome)
| env_emit (key : string) (args : list value)
| env_tables (connected : bool) (ds : gmap string (gmap string callable))
    (evs : gmap string (list string))
| env_on (key : string) (id : nat).

Definition do_settle (p : nat) (o : outcome) (w : World) : World :=
  match promises w !! p with
  | Some c =>
      if external c then
        match o with
        | Fulfilled v => resolve p v w
        | Rejected e => settle p (Rejected e) w
        end
      else w
  | None => w
  end.

Definition step (a : action) (w : World) : World :=
  match a with
  | call_ready => w
  | call_promise => world_of (promise w)
  | call_exec name params => world_of (exec name params w)
  | call_refreshInterface => world_of (refreshInterface w)
  | tick =>
      match jobs w with
      | [] => w
      | j :: js => run_job j (set_jobs js w)
      end
  | env_future =>
      world_of (alloc {| state := Pending []; external := true |} w)
  | env_settle p o => do_settle p o w
  | env_emit key args => world_of (emit key args w)
  | env_tables b ds evs =>
      set_connection (Build_Connection b ds evs (events (connection w))) w
  | env_on key id => set_connection (on key (foreign id) (connection w)) w
  end.

Definition run (l : list action) (w : World) : World :=
  foldl (fun w a => step a w) w l.

(** *** Vocabulary of the properties *)

(** The four fields of the proxy object. *)
Definition proxy_fields (w : World) : string * string * bool * option nat :=
  (_domainName w, _domainPath w, _domainLoaded w, _connectionPromise w).

Definition reactions_of (c : pcell) : list reaction :=
  match state c with
  | Pending rs => rs
  | Settled _ => []
  end.

Definition is_pending (p : nat) (w : World) : bool :=
  match promises w !! p with
  | Some c => match state c with Pending _ => true | Settled _ => false end
  | None => false
  end.

(** The outcome of a promise that has settled. *)
Definition outcome_of (p : nat) (w : World) : option outcome :=
  match promises w !! p with
  | Some c => match state c with Pending _ => None | Settled o => Some o end
  | None => None
  end.

(** The promise that [Promise.reject()] creates. *)
Definition rejected_cell : pcell :=
  {| state := Settled (Rejected VUndefined); external := false |}.

(** The job that a deferred [exec] leaves on the pending readiness future. *)
Definition deferred_job (name : string) (params : list value) (v : value)
    (r : nat) : job :=
  {| handler := Some (execConnected name params); input := Fulfilled v;
     target := r |}.

(** The promise [r] waits for the promise [p]: as long as [p] is pending,
    [r] is pending, is not one of the Connection's futures, and is the
    target of no job and of no reaction except those registered on [p];
    [ts] are the targets held by the code that is running. *)
Definition waits_for (p r : nat) (ts : list nat) (w : World) : Prop :=
  p < length (promises w)
  /\ r < length (promises w)
  /\ (forall c, promises w !! r = Some c -> external c = false)
  /\ (is_pending p w = true ->
      Forall (fun t => t <> r) ts
      /\ is_pending r w = true
      /\ Forall (fun j => target j <> r) (jobs w)
      /\ (forall q c, q <> p -> promises w !! q = Some c ->
            Forall (fun x => derived x <> r) (reactions_of c))).

(** The reaction that a deferred [exec] registers. *)
Definition deferred_reaction (name : string) (params : list value) (r : nat)
    : reaction :=
  {| on_fulfilled := Some (execConnected name params); on_rejected := None;
     derived := r |}.

(** The reaction [x] is registered on [p] for as long as [p] is pending. *)
Definition registered (p : nat) (x : reaction) (w : World) : Prop :=
  p < length (promises w)
  /\ (is_pending p w = true ->
      exists c, promises w !! p = Some c /\ x ∈ reactions_of c).

(** Jobs and reactions name allocated promises only, and so do the targets
    [ts] held by the code that is running. *)
Definition well_formed (ts : list nat) (w : World) : Prop :=
  Forall (fun t => t < length (promises w)) ts
  /\ Forall (fun j => target j < length (promises w)) (jobs w)
  /\ Forall (fun c => Forall (fun x => derived x < length (promises w))
                        (reactions_of c)) (promises w).

(** What the promise runtime never touches: the proxy's fields, the
    Connection and the effects. *)
Definition outside_heap (w : World)
    : string * string * bool * option nat * Regex.regexp * Connection * list effect :=
  (_domainName w, _domainPath w, _domainLoaded w, _connectionPromise w,
   domainPrefix w, connection w, trace w).

(** The two fields that the load step and the close handler assign go
    together, and the close handler listens for [close] only. *)
Definition proxy_inv (w : World) : Prop :=
  (_connectionPromise w = None <-> _domainLoaded w = true)
  /\ (forall k, close_handler ∈ getListeners k (connection w) -> k = "close").

(** The readiness future, when there is one, is a promise of the heap. *)
Definition readiness_allocated (w : World) : Prop :=
  forall p, _connectionPromise w = Some p -> p < length (promises w).

(** Under the namespaced keys of the domain [n] the Connection holds the
    proxy's own relays only: for each event none, or the relay of the
    event. *)
Definition own_relays (n : string) (w : World) : Prop :=
  _domainName w = n
  /\ forall e, getListeners (event_key n e) (connection w) = []
            \/ getListeners (event_key n e) (connection w) = [relay e].

(** Clients that subscribe to the Connection directly stay clear of the
    namespaced keys of the domain [n]. *)
Definition keeps_clear (n : string) (a : action) : Prop :=
  match a with
  | env_on key _ => forall e, key <> event_key n e
  | _ => True
  end.

(** Is every promise settled? *)
Definition all_settled (w : World) : bool :=
  forallb (fun c => match state c with Pending _ => false | Settled _ => true end)
    (promises w).

(** A statement preserves a property of the world when the property holds
    in the state it leaves, returned or thrown. *)
Definition preserves {A} (G : World -> Prop) (m : M A) : Prop :=
  forall w, G w -> G (world_of (m w)).

(** The Connection's contract for its [close] event: the payload is its
    reconnection future. *)
Definition allowed (a : action) : Prop :=
  match a with
  | env_emit key args =>
      key = "close" -> exists p rest, args = VPromise p :: rest
  | _ => True
  end.

(** The states a proxy can be in. *)
Inductive reachable : World -> Prop :=
| reachable_new h domainName domainPath w :
    NodeDomain h domainName domainPath = Some w -> reachable w
| reachable_step a w :
    reachable w -> allowed a -> reachable (step a w).

(** What identifies a proxy: its name, its path and the pattern of its
    close handler. *)
Definition identity (w : World) : string * string * Regex.regexp :=
  (_domainName w, _domainPath w, domainPrefix w).

(** The reactions registered on a promise. *)
Definition reactions_at (p : nat) (w : World) : list reaction :=
  match promises w !! p with
  | Some c => reactions_of c
  | None => []
  end.

(** An action other than the close of the Connection: no [close] event,
    and the Connection does not report itself disconnected. *)
Definition peaceful (a : action) : Prop :=
  match a with
  | env_emit key _ => key <> "close"
  | env_tables b _ _ => b = true
  | _ => True
  end.

(** The Connection fulfils one of its futures, which carry no value. *)
Definition fulfil (p : nat) : action := env_settle p (Fulfilled VUndefined).

(** After construction: the connection opens and the load step runs up to
    its [loadDomains] request, which is promise 2; the Connection then
    knows its tables. *)
Definition connects (b : bool) (ds : gmap string (gmap string callable))
    (evs : gmap string (list string)) : list action :=
  [fulfil 0; tick; env_tables b ds evs].

(** The request succeeds and the three jobs it causes run. *)
Definition loads : list action := [fulfil 2; tick; tick; tick].


(** After construction: the connection cannot be opened. *)
Definition fails_to_connect (e : value) : list action :=
  [env_settle 0 (Rejected e); tick].

(** A command of this proxy's domain in the Connection's command table. *)
Definition command (name : string) (w : World) : option callable :=
  (domains (connection w) !! _domainName w) ≫= (fun d => d !! name).

(** What [domain && domain[name]] is in [execConnected]: the function that
    will be applied, or [None] when the value is falsy. *)
Definition property (name : string) (w : World) : option callable :=
  domain_of w ≫= (fun d => property_of (host w) d name).

End Lib.

(** ** Concrete proxies

    A proxy for the domain [foo], whose Connection offers the commands
    [ping] and [fail] and the event [changed], at several points of its
    life. *)

Module Examples.

Import Lib.

(** The host of the examples.  Their domain names give patterns of the
    fragment, so its engine is asked for nothing.  Of what ordinary objects
    inherit it has the two properties that the examples read: the method
    [toString], which answers ["[object Object]"] on a command table, and
    the accessor [__proto__], which reads [Object.prototype] itself, an
    object that cannot be applied. *)
Definition ordinary : Host :=
  {| compile := fun _ => None;
     inherited := fun name =>
       if bool_decide (name = "toString") then Some "Object.prototype.toString"
       else if bool_decide (name = "__proto__") then Some "Object.prototype"
       else None;
     member := fun _ _ => None;
     apply_builtin := fun b _ _ =>
       if bool_decide (b = "Object.prototype.toString")
       then CmdReturns (VStr "[object Object]")
       else CmdThrows (VError "TypeError");
     keys := fun _ => [] |}.

Definition blank : World :=
  {| _domainName := EmptyString; _domainPath := EmptyString;
     _domainLoaded := false; _connectionPromise := None;
     domainPrefix := Regex.Pattern false [];
     connection := new_NodeConnection;
     promises := []; jobs := []; trace := []; host := ordinary |}.

Definition construct (domainName domainPath : string) : World :=
  default blank (NodeDomain ordinary domainName domainPath).

Definition foo_commands : gmap string (gmap string callable) :=
  {[ "foo" := {[ "ping" := (fun _ => CmdRequest);
                 "fail" := (fun _ => CmdThrows (VError "RemoteError")) ]} ]}.

Definition foo_events : gmap string (list string) :=
  {[ "foo" := ["changed"] ]}.

(** Just after [new NodeDomain("foo", "/domains/foo.js")]: promise 0 is the
    connect future, promise 1 is [_connectionPromise]. *)
Definition fresh : World := construct "foo" "/domains/foo.js".

(** The connection opens and the load step starts: promise 2 is the
    loadDomains future, 3 and 4 are the results of [then] and [catch]. *)
Definition connecting : list action :=
  [env_settle 0 (Fulfilled VUndefined); env_tables true foo_commands foo_events; tick].

(** The domain loads. *)
Definition load_succeeds : list action :=
  [env_settle 2 (Fulfilled VUndefined); tick; tick; tick].

(** The domain does not load. *)
Definition load_fails : list action :=
  [env_settle 2 (Rejected (VStr "no such file")); tick; tick; tick].

(** The tables are known, no relay is installed yet. *)
Definition connected_proxy : World := run connecting fresh.

Definition ready_proxy : World := run (connecting ++ load_succeeds) fresh.

Definition failed_proxy : World := run (connecting ++ load_fails) fresh.

(** The load step has failed and its failure branch is the next job. *)
Definition failing_proxy : World :=
  run (connecting ++ [env_settle 2 (Rejected (VStr "no such file")); tick]) fresh.

(** A loaded proxy whose Connection reports that it is not connected, before
    any [close] event: not ready, and no readiness future. *)
Definition disconnected_proxy : World :=
  step (env_tables false foo_commands foo_events) ready_proxy.

(** The Connection reconnects after [closing] and the domain loads again:
    promise 7 is the new loadDomains future. *)
Definition reloading : list action :=
  [env_settle 5 (Fulfilled VUndefined); tick;
   env_settle 7 (Fulfilled VUndefined); tick; tick; tick].

(** A ready proxy on whose Connection a client listens for an event of the
    domain [foobar]. *)
Definition shared_proxy : World :=
  step (env_on "foobar:changed" 7) ready_proxy.

(** The Connection closes: it creates its reconnection future, promise 5,
    and fires [close] with it. *)
Definition closing : list action :=
  [env_future; env_emit "close" [VPromise 5]].

(** A proxy for a domain named [c], just constructed, and the close of its
    Connection: promise 2 is the reconnection future. *)
Definition c_proxy : World := construct "c" "/domains/c.js".

Definition closing_early : list action :=
  [env_future; env_emit "close" [VPromise 2]].

(** The command [fail] is called before the connection is open; the
    connection opens and the domain loads; the deferred call runs. *)
Definition deferred_failure : list action :=
  [call_exec "fail" [VNum 1];
   env_settle 0 (Fulfilled VUndefined);
   env_tables true foo_commands foo_events; tick;
   env_settle 3 (Fulfilled VUndefined); tick; tick; tick; tick].

(** Called before the connection is open, [exec] is deferred; the command
    [ping] is known only once the domain has loaded. *)
Definition scenario_A : list action :=
  [call_exec "ping" [VNum 1; VNum 2];
   env_settle 0 (Fulfilled VUndefined);
   env_tables true foo_commands foo_events; tick;
   env_settle 3 (Fulfilled VUndefined); tick; tick; tick; tick;
   env_settle 6 (Fulfilled (VStr "pong")); tick].

End Examples.

(** * Properties of main.js *)

Section DomainPrefKey.

Import Main.
Local Open Scope N_scope.

Lemma of_ascii_string_cons (c : ascii) (s : string) :
  of_ascii_string (String c s) = N_of_ascii c :: of_ascii_string s.
Proof. reflexivity. Qed.

Lemma digits_all_decimal (d : Decimal.uint) :
  Forall (fun c => is_digit c = true) (digits d).
Proof.
  induction d; [constructor | constructor; [reflexivity | exact IHd] ..].
Qed.

Lemma foldl_shift_acc (d : Decimal.uint) :
  forall acc : positive,
    foldl shift (N.pos acc) (digits d) = N.pos (Pos.of_uint_acc d acc).
Proof.
  induction d; intros acc; [reflexivity | ..];
    unfold digits in *; cbn [NilEmpty.string_of_uint];
    rewrite of_ascii_string_cons; cbn [foldl Pos.of_uint_acc];
    rewrite <- IHd; f_equal; unfold shift; cbn [N_of_ascii N_of_digits]; lia.
Qed.

Lemma foldl_shift_zero (d : Decimal.uint) :
  foldl shift 0 (digits d) = Pos.of_uint d.
Proof.
  induction d; [reflexivity | exact IHd | ..];
    cbn [Pos.of_uint]; rewrite <- foldl_shift_acc;
    unfold digits; cbn [NilEmpty.string_of_uint];
    rewrite of_ascii_string_cons; reflexivity.
Qed.

Lemma Number_toString_digits (n : N) :
  Forall (fun c => is_digit c = true) (Number_toString n).
Proof. apply digits_all_decimal. Qed.

Lemma Number_toString_value (n : N) : decimal_value (Number_toString n) = n.
Proof.
  unfold decimal_value, Number_toString.
  rewrite <- (DecimalN.Unsigned.of_to n) at 2.
  apply (foldl_shift_zero (N.to_uint n)).
Qed.

Lemma is_digit_word (c : N) : is_digit c = true -> is_word_char c = true.
Proof.
  unfold is_digit, is_word_char, is_alnum. intros ->.
  rewrite orb_true_r. reflexivity.
Qed.

Lemma image_word (c : N) : Forall (fun x => is_word_char x = true) (image c).
Proof.
  unfold image. destruct (is_alnum c) eqn:E.
  - constructor; [| constructor]. unfold is_word_char. rewrite E. reflexivity.
  - constructor; [reflexivity |]. apply Forall_app. split.
    + eapply Forall_impl; [apply Number_toString_digits |].
      intros x Hx. apply is_digit_word, Hx.
    + constructor; [reflexivity | constructor].
Qed.

Lemma replace_g_images (s : jsstring) :
  replace_g not_alnum escape_char s = concat (image <$> s).
Proof.
  induction s as [| c s IH]; [reflexivity |].
  cbn [replace_g fmap list_fmap concat]. rewrite IH. f_equal.
  unfold image, not_alnum, escape_char. destruct (is_alnum c); reflexivity.
Qed.

(** C10.  For a non-empty string, [domainPrefKey] returns the concatenation
    of the images of its characters: an alphanumeric character is its own
    image, any other character [c] becomes ["_"], the decimal digits of the
    character code of [c], ["_"]; the result holds only letters, digits and
    underscores.  A falsy argument is returned as it is. *)
Theorem domainPrefKey_escapes (s : jsstring) (v : jsval)
    (Hs : s <> []) (Hv : truthy v = false) :
  (exists out,
      domainPrefKey (JString s) = Normal (JString out)
      /\ out = concat (image <$> s)
      /\ Forall (fun c => is_word_char c = true) out)
  /\ (forall c, is_alnum c = true -> image c = [c])
  /\ (forall c, is_alnum c = false ->
        exists ds, image c = [underscore] ++ ds ++ [underscore]
                   /\ Forall (fun d => is_digit d = true) ds
                   /\ decimal_value ds = c)
  /\ domainPrefKey v = Normal v.
Proof.
  repeat split.
  - exists (replace_g not_alnum escape_char s). split; [| split].
    + unfold domainPrefKey. cbn [truthy].
      rewrite bool_decide_eq_false_2 by exact Hs. reflexivity.
    + apply replace_g_images.
    + rewrite replace_g_images. apply Forall_concat, Forall_fmap.
      apply Forall_forall. intros c _. apply image_word.
  - intros c Hc. unfold image. rewrite Hc. reflexivity.
  - intros c Hc. exists (Number_toString c). unfold image. rewrite Hc.
    split; [reflexivity |].
    split; [apply Number_toString_digits | apply Number_toString_value].
  - unfold domainPrefKey. rewrite Hv. reflexivity.
Qed.

Lemma domainPrefKey_escapes_witness :
  of_ascii_string "my-plugin.v2" <> []
  /\ truthy (JString []) = false
  /\ domainPrefKey (JString (of_ascii_string "my-plugin.v2"))
     = Normal (JString (of_ascii_string "my_45_plugin_46_v2"))
  /\ domainPrefKey (JString []) = Normal (JString []).
Proof.
  pose proof (domainPrefKey_escapes (of_ascii_string "my-plugin.v2") (JString []))
    as H.
  split; [discriminate |]. split; [reflexivity |].
  destruct H as [(out & E & -> & _) (_ & _ & F)];
    [discriminate | reflexivity |].
  split; [rewrite E; reflexivity | exact F].
Defined.

End DomainPrefKey.

(** ** Further properties of [domainPrefKey] *)

Section DomainPrefKeyMore.

Import Main.
Local Open Scope N_scope.

Lemma domainPrefKey_string (s : jsstring) :
  domainPrefKey (JString s) = Normal (JString (replace_g not_alnum escape_char s)).
Proof.
  unfold domainPrefKey. cbn [truthy]. case_bool_decide as H; [| reflexivity].
  subst s. reflexivity.
Qed.

Lemma digit_not_underscore (c : N) : is_digit c = true -> c <> underscore.
Proof. intros H ->. discriminate H. Qed.

Lemma alnum_not_underscore (c : N) : is_alnum c = true -> c <> underscore.
Proof. intros H ->. discriminate H. Qed.

(** Two runs of digits, each closed by an underscore, that start equal
    texts are the same run. *)
Lemma digits_closed_inj (d1 d2 r1 r2 : jsstring) :
  Forall (fun c => is_digit c = true) d1 ->
  Forall (fun c => is_digit c = true) d2 ->
  d1 ++ underscore :: r1 = d2 ++ underscore :: r2 ->
  d1 = d2 /\ r1 = r2.
Proof.
  intros H1. revert d2. induction H1 as [| c d1 Hc _ IH]; intros d2 H2 E.
  - destruct H2 as [| c' d2 Hc' _]; cbn in E.
    + by injection E.
    + injection E as E _. symmetry in E. by apply digit_not_underscore in E.
  - destruct H2 as [| c' d2 Hc' H2]; cbn in E.
    + injection E as E _. by apply digit_not_underscore in E.
    + injection E as -> E. destruct (IH d2 H2 E) as [-> ->]. done.
Qed.

Lemma replace_g_inj (s1 s2 : jsstring) :
  replace_g not_alnum escape_char s1 = replace_g not_alnum escape_char s2 ->
  s1 = s2.
Proof.
  revert s2. induction s1 as [| c1 t1 IH]; intros [| c2 t2] E; [done | | |].
  - exfalso. cbn in E. unfold escape_char in E. destruct (not_alnum c2); discriminate E.
  - exfalso. cbn in E. unfold escape_char in E. destruct (not_alnum c1); discriminate E.
  - cbn [replace_g] in E. unfold not_alnum, escape_char in E.
    destruct (is_alnum c1) eqn:A1, (is_alnum c2) eqn:A2; cbn in E.
    + injection E as -> E. f_equal. by apply IH.
    + injection E as -> _. by apply alnum_not_underscore in A1.
    + injection E as <- _. by apply alnum_not_underscore in A2.
    + injection E as E. rewrite <- !app_assoc in E. cbn in E.
      apply digits_closed_inj in E as [Ed E];
        [| apply Number_toString_digits ..].
      apply (f_equal decimal_value) in Ed.
      rewrite !Number_toString_value in Ed. subst c2. f_equal. by apply IH.
Qed.

Lemma domainPrefKey_Normal (v r : jsval) :
  domainPrefKey v = Normal r ->
  (exists s, v = JString s /\ r = JString (replace_g not_alnum escape_char s))
  \/ (v = r /\ forall s, r <> JString s).
Proof.
  destruct v as [| | [] | s]; rewrite ?domainPrefKey_string; cbn;
    intros [= <-]; try (right; split; [reflexivity | discriminate]).
  left. eauto.
Qed.

(** X1.  [domainPrefKey] loses nothing: two arguments with the same key
    are the same argument.  Distinct domain names never share a
    preference key. *)
Theorem domainPrefKey_injective (v1 v2 r : jsval)
    (H1 : domainPrefKey v1 = Normal r) (H2 : domainPrefKey v2 = Normal r) :
  v1 = v2.
Proof.
  apply domainPrefKey_Normal in H1 as [(s1 & -> & E1) | [-> N1]];
    apply domainPrefKey_Normal in H2 as [(s2 & -> & E2) | [-> N2]].
  - f_equal. apply replace_g_inj. congruence.
  - by destruct (N2 _ E1).
  - by destruct (N1 _ E2).
  - reflexivity.
Qed.

Lemma domainPrefKey_injective_witness :
  domainPrefKey (JString (of_ascii_string "a.b"))
  = Normal (JString (of_ascii_string "a_46_b"))
  /\ JString (of_ascii_string "a.b") = JString [97; 46; 98].
Proof.
  split; [reflexivity |].
  apply (domainPrefKey_injective (JString (of_ascii_string "a.b"))
           (JString [97; 46; 98]) (JString (of_ascii_string "a_46_b")));
    reflexivity.
Defined.

Lemma escape_char_length (c : N) :
  length (escape_char c) = S (S (length (Number_toString c))).
Proof. unfold escape_char. cbn [app length]. rewrite length_app. cbn. lia. Qed.

Lemma replace_g_length (s : jsstring) :
  (length s <= length (replace_g not_alnum escape_char s))%nat.
Proof.
  induction s as [| c s IH]; [done |]. cbn [replace_g].
  rewrite length_app. destruct (not_alnum c);
    rewrite ?escape_char_length; cbn [length]; lia.
Qed.

Lemma replace_g_alnum (s : jsstring) :
  Forall (fun c => is_alnum c = true) s ->
  replace_g not_alnum escape_char s = s.
Proof.
  induction 1 as [| c s Hc _ IH]; [done |]. cbn [replace_g].
  unfold not_alnum at 1. rewrite Hc, IH. reflexivity.
Qed.

Lemma replace_g_fixed (s : jsstring) :
  replace_g not_alnum escape_char s = s ->
  Forall (fun c => is_alnum c = true) s.
Proof.
  induction s as [| c s IH]; [constructor |]. cbn [replace_g].
  unfold not_alnum at 1. destruct (is_alnum c) eqn:A; cbn [negb app].
  - intros [= E]. constructor; auto.
  - intros [= _ E]. exfalso. apply (f_equal length) in E.
    rewrite !length_app in E. cbn [length] in E.
    pose proof (replace_g_length s). lia.
Qed.

Lemma replace_g_cons (c : N) (s : jsstring) :
  replace_g not_alnum escape_char (c :: s)
  = (if is_alnum c then [c] else escape_char c)
    ++ replace_g not_alnum escape_char s.
Proof. cbn [replace_g]. unfold not_alnum at 1. by destruct (is_alnum c). Qed.

Lemma replace_g_same_length (s : jsstring) :
  length (replace_g not_alnum escape_char s) = length s ->
  replace_g not_alnum escape_char s = s.
Proof.
  induction s as [| c s IH]; [done |]. rewrite replace_g_cons.
  pose proof (replace_g_length s).
  destruct (is_alnum c); rewrite length_app, ?escape_char_length;
    cbn [app length]; intros E; [| lia].
  f_equal. apply IH. lia.
Qed.

(** X2.  The names that are their own key are the alphanumeric ones: the
    key of a string equals the string exactly when every character is in
    [[a-zA-Z0-9]]; the key is never shorter than the string, and a key of
    the same length is the string itself. *)
Theorem domainPrefKey_fixed_iff_alnum (s : jsstring) :
  (domainPrefKey (JString s) = Normal (JString s)
   <-> Forall (fun c => is_alnum c = true) s)
  /\ exists key, domainPrefKey (JString s) = Normal (JString key)
                 /\ (length s <= length key)%nat
                 /\ (length key = length s -> key = s).
Proof.
  rewrite domainPrefKey_string. split.
  - split.
    + intros [= E]. by apply replace_g_fixed.
    + intros H. by rewrite replace_g_alnum.
  - eexists. split; [reflexivity |]. split; [apply replace_g_length |].
    apply replace_g_same_length.
Qed.

Lemma domainPrefKey_fixed_iff_alnum_witness :
  domainPrefKey (JString (of_ascii_string "plugin42"))
  = Normal (JString (of_ascii_string "plugin42"))
  /\ ~ Forall (fun c => is_alnum c = true) (of_ascii_string "my plugin").
Proof.
  split.
  - apply (domainPrefKey_fixed_iff_alnum (of_ascii_string "plugin42")).
    repeat constructor.
  - intros H.
    apply (domainPrefKey_fixed_iff_alnum (of_ascii_string "my plugin")) in H.
    discriminate H.
Defined.

Lemma replace_g_app (a b : jsstring) :
  replace_g not_alnum escape_char (a ++ b)
  = replace_g not_alnum escape_char a ++ replace_g not_alnum escape_char b.
Proof.
  induction a as [| c a IH]; [done |]. cbn [app replace_g].
  rewrite IH, app_assoc. reflexivity.
Qed.

(** X3.  The key of a concatenation is the concatenation of the keys; so
    when one name is a prefix of another, its key is a prefix of the
    other's key. *)
Theorem domainPrefKey_concat (a b : jsstring) :
  exists ka kb,
    domainPrefKey (JString a) = Normal (JString ka)
    /\ domainPrefKey (JString b) = Normal (JString kb)
    /\ domainPrefKey (JString (a ++ b)) = Normal (JString (ka ++ kb))
    /\ forall c, a `prefix_of` c ->
         exists kc, domainPrefKey (JString c) = Normal (JString kc)
                    /\ ka `prefix_of` kc.
Proof.
  exists (replace_g not_alnum escape_char a), (replace_g not_alnum escape_char b).
  rewrite !domainPrefKey_string, replace_g_app.
  split; [done |]. split; [done |]. split; [done |].
  intros c [rest ->]. eexists. rewrite domainPrefKey_string. split; [done |].
  rewrite replace_g_app. by eexists.
Qed.

Lemma domainPrefKey_concat_witness :
  of_ascii_string "gen" `prefix_of` of_ascii_string "gen-assets"
  /\ exists kc, domainPrefKey (JString (of_ascii_string "gen-assets"))
                = Normal (JString kc)
                /\ of_ascii_string "gen" `prefix_of` kc.
Proof.
  assert (of_ascii_string "gen" `prefix_of` of_ascii_string "gen-assets") as Hp
    by (exists (of_ascii_string "-assets"); reflexivity).
  split; [exact Hp |].
  destruct (domainPrefKey_concat (of_ascii_string "gen") [])
    as (ka & kb & Ha & _ & _ & Hc).
  injection Ha as <-. apply Hc, Hp.
Defined.

Lemma of_uint_acc_lower (d : Decimal.uint) :
  forall acc : positive,
    N.pos acc * 10 ^ N.of_nat (Decimal.nb_digits d)
    <= N.pos (Pos.of_uint_acc d acc).
Proof.
  induction d; intros acc; cbn [Decimal.nb_digits Pos.of_uint_acc];
    [rewrite N.pow_0_r; lia | ..];
    rewrite Nat2N.inj_succ, N.pow_succ_r';
    (etransitivity; [| apply IHd]);
    rewrite N.mul_assoc; apply N.mul_le_mono_r; lia.
Qed.

Lemma digits_length (d : Decimal.uint) : length (digits d) = Decimal.nb_digits d.
Proof.
  induction d; [reflexivity | ..];
    unfold digits in *; cbn [NilEmpty.string_of_uint Decimal.nb_digits];
    rewrite of_ascii_string_cons; cbn [length]; by rewrite IHd.
Qed.

(** A normalised numeral of [k + 1] digits denotes at least [10 ^ k]. *)
Lemma unorm_lower (d : Decimal.uint) :
  10 ^ N.of_nat (Nat.pred (Decimal.nb_digits (Decimal.unorm d)))
  <= N.max 1 (Pos.of_uint d).
Proof.
  induction d; cbn [Decimal.unorm Decimal.nzhead Pos.of_uint];
    [cbn; lia | exact IHd | ..];
    cbn [Decimal.nb_digits Nat.pred];
    (etransitivity; [| apply N.le_max_r]);
    (etransitivity; [| apply of_uint_acc_lower]); lia.
Qed.

Lemma Number_toString_short (n : N) (k : nat) :
  n < 10 ^ N.of_nat (S k) -> (length (Number_toString n) <= S k)%nat.
Proof.
  intros Hn. change (Number_toString n) with (digits (N.to_uint n)).
  rewrite digits_length.
  pose proof (unorm_lower (N.to_uint n)) as H.
  rewrite <- (DecimalN.Unsigned.to_of (N.to_uint n)) in H.
  change (Pos.of_uint (N.to_uint n)) with (N.of_uint (N.to_uint n)) in H.
  rewrite DecimalN.Unsigned.of_to in H.
  destruct (decide (Decimal.nb_digits (N.to_uint n) <= S k)%nat) as [| Hgt];
    [assumption | exfalso].
  assert (10 ^ N.of_nat (S k)
          <= 10 ^ N.of_nat (Nat.pred (Decimal.nb_digits (N.to_uint n)))) as Hpow
    by (apply N.pow_le_mono_r; lia).
  assert (1 < 10 ^ N.of_nat (S k)) as Hone
    by (apply N.pow_gt_1; lia).
  lia.
Qed.

Lemma replace_g_bound (s : jsstring) :
  Forall (fun c => c < 65536) s ->
  (length (replace_g not_alnum escape_char s) <= 7 * length s)%nat.
Proof.
  induction 1 as [| c s Hc _ IH]; [done |]. rewrite replace_g_cons, length_app.
  assert (length (Number_toString c) <= 5)%nat
    by (apply (Number_toString_short c 4);
        apply (N.lt_trans _ 65536); [exact Hc | reflexivity]).
  destruct (is_alnum c); rewrite ?escape_char_length; cbn [length]; lia.
Qed.

(** X4.  The key of a string of UTF-16 code units is at least as long as
    the string and at most seven times as long: an escaped character takes
    two underscores and at most five decimal digits. *)
Theorem domainPrefKey_length (s : jsstring)
    (Hunits : Forall (fun c => c < 65536) s) :
  exists key, domainPrefKey (JString s) = Normal (JString key)
              /\ (length s <= length key <= 7 * length s)%nat.
Proof.
  eexists. split; [apply domainPrefKey_string |].
  split; [apply replace_g_length | by apply replace_g_bound].
Qed.

Lemma domainPrefKey_length_witness :
  Forall (fun c => c < 65536) [65535; 97]
  /\ exists key, domainPrefKey (JString [65535; 97]) = Normal (JString key)
                 /\ (2 <= length key <= 14)%nat.
Proof.
  assert (Forall (fun c => c < 65536) [65535; 97]) as H
    by (repeat constructor).
  split; [exact H |]. apply (domainPrefKey_length [65535; 97] H).
Defined.

End DomainPrefKeyMore.

(** * Properties of lib/NodeDomain.js *)

Section Observers.

Import Lib.

Implicit Types (w : World) (name : string) (params : list value).

Lemma promise_fields w : proxy_fields (world_of (promise w)) = proxy_fields w.
Proof.
  unfold promise. destruct (_connectionPromise w); [reflexivity |].
  destruct (ready w); reflexivity.
Qed.

Lemma run_execConnected_fields name params w :
  proxy_fields (world_of (run_execConnected name params w)) = proxy_fields w.
Proof.
  unfold run_execConnected.
  destruct (domain_of w ≫= _) as [f |]; [| reflexivity].
  unfold apply_command, bind, update. destruct (f params); reflexivity.
Qed.

Lemma exec_fields name params w :
  proxy_fields (world_of (exec name params w)) = proxy_fields w.
Proof.
  unfold exec. destruct (ready w); [apply run_execConnected_fields |].
  destruct (_connectionPromise w) as [p |] eqn:E; [| reflexivity].
  unfold then_, bind, update, alloc, ret, subscribe. cbn.
  destruct (_ !! p) as [c |]; [| unfold proxy_fields; cbn; congruence].
  destruct (state c); unfold proxy_fields; cbn; congruence.
Qed.

(** C9.  [ready()], [promise()] and [exec(...)] leave the fields
    [_domainName], [_domainPath], [_domainLoaded] and [_connectionPromise]
    as they found them, whether they return or throw; [ready()] changes
    nothing at all. *)
Theorem observers_keep_proxy_fields w name params :
  step call_ready w = w
  /\ proxy_fields (world_of (promise w)) = proxy_fields w
  /\ proxy_fields (world_of (exec name params w)) = proxy_fields w.
Proof.
  split; [reflexivity |].
  split; [apply promise_fields | apply exec_fields].
Qed.

Lemma lookup_alloc (ps : list pcell) (c : pcell) :
  (ps ++ [c]) !! length ps = Some c.
Proof. apply list_lookup_middle. reflexivity. Qed.

Lemma outcome_of_settle p o w :
  is_pending p w = true -> outcome_of p (settle p o w) = Some o.
Proof.
  unfold is_pending, outcome_of, settle. intros H.
  destruct (promises w !! p) as [c |] eqn:E; [| discriminate].
  destruct (state c) eqn:S; [| discriminate]. cbn.
  rewrite list_lookup_insert_eq; [reflexivity |].
  eapply lookup_lt_Some, E.
Qed.

Lemma exec_not_ready_no_pending name params w :
  ready w = false -> _connectionPromise w = None ->
  exec name params w
  = Return (VPromise (length (promises w)))
      (set_promises (promises w ++ [rejected_cell]) w).
Proof. unfold exec. intros -> ->. reflexivity. Qed.

Lemma exec_ready name params w :
  ready w = true -> exec name params w = run_execConnected name params w.
Proof. unfold exec. intros ->. reflexivity. Qed.

(** C7.  With no pending readiness future and [ready()] false, [promise()]
    and [exec(...)] return a future that is rejected already when they
    return, and schedule nothing; with a pending readiness future,
    [promise()] returns that very future and changes nothing. *)
Theorem not_ready_without_pending_rejects w w' name params p
    (Hnone : _connectionPromise w = None) (Hnr : ready w = false)
    (Hsome : _connectionPromise w' = Some p) :
  let r := length (promises w) in
  let w1 := set_promises (promises w ++ [rejected_cell]) w in
  promise w = Return r w1
  /\ exec name params w = Return (VPromise r) w1
  /\ outcome_of r w1 = Some (Rejected VUndefined)
  /\ jobs w1 = jobs w
  /\ promise w' = Return p w'.
Proof.
  cbn zeta. repeat split.
  - unfold promise. rewrite Hnone, Hnr. reflexivity.
  - apply exec_not_ready_no_pending; assumption.
  - unfold outcome_of. cbn. rewrite lookup_alloc. reflexivity.
  - unfold promise. rewrite Hsome. reflexivity.
Qed.

Lemma not_ready_without_pending_rejects_witness :
  _connectionPromise Examples.disconnected_proxy = None
  /\ ready Examples.disconnected_proxy = false
  /\ _connectionPromise Examples.fresh = Some 1
  /\ promise Examples.disconnected_proxy
     = Return 5 (set_promises (promises Examples.disconnected_proxy ++ [rejected_cell])
                   Examples.disconnected_proxy)
  /\ exec "ping" [VNum 1; VNum 2] Examples.disconnected_proxy
     = Return (VPromise 5)
         (set_promises (promises Examples.disconnected_proxy ++ [rejected_cell])
            Examples.disconnected_proxy)
  /\ promise Examples.fresh = Return 1 Examples.fresh.
Proof.
  assert (_connectionPromise Examples.disconnected_proxy = None) as H1
    by (vm_compute; reflexivity).
  assert (ready Examples.disconnected_proxy = false) as H2
    by (vm_compute; reflexivity).
  assert (_connectionPromise Examples.fresh = Some 1) as H3
    by (vm_compute; reflexivity).
  assert (length (promises Examples.disconnected_proxy) = 5) as H4
    by (vm_compute; reflexivity).
  pose proof (not_ready_without_pending_rejects Examples.disconnected_proxy
                Examples.fresh "ping" [VNum 1; VNum 2] 1 H1 H2 H3) as H.
  cbn zeta in H. rewrite H4 in H. destruct H as (Ha & Hb & _ & _ & He).
  repeat (apply conj; [assumption |]). exact He.
Defined.

Lemma property_own name w f : command name w = Some f -> property name w = Some f.
Proof.
  unfold command, property, domain_of.
  destruct (domains (connection w) !! _domainName w) as [d |]; [| discriminate].
  cbn. intros ->. reflexivity.
Qed.

Lemma run_execConnected_property name params w :
  run_execConnected name params w
  = match property name w with
    | Some f => apply_command (_domainName w) name f params w
    | None => Return (VPromise (length (promises w)))
                (set_promises (promises w ++ [rejected_cell]) w)
    end.
Proof. unfold run_execConnected, property. by destruct (_ ≫= _). Qed.

(** Where [domain && domain[name]] is falsy, [exec] on a ready proxy
    returns a future that is rejected already. *)
Lemma exec_falsy_property_rejects w name params :
  ready w = true -> property name w = None ->
  exec name params w
  = Return (VPromise (length (promises w)))
      (set_promises (promises w ++ [rejected_cell]) w).
Proof.
  intros Hr Hp. rewrite exec_ready by exact Hr.
  rewrite run_execConnected_property, Hp. reflexivity.
Qed.

(** Where the command table has no entry [name] and its prototype has a
    property [name], [exec] on a ready proxy applies the inherited value. *)
Lemma exec_ready_inherited w name params d b :
  ready w = true ->
  domains (connection w) !! _domainName w = Some d ->
  d !! name = None ->
  inherited (host w) name = Some b ->
  command name w = None
  /\ exec name params w
     = apply_command (_domainName w) name
         (apply_builtin (host w) b (Table d)) params w.
Proof.
  intros Hr Hd Hn Hb. split.
  - unfold command. rewrite Hd. exact Hn.
  - rewrite exec_ready by exact Hr. unfold run_execConnected, domain_of.
    rewrite Hd. cbn. rewrite Hn, Hb. reflexivity.
Qed.

(** C6: the claim fails on the code.  The proxy of the domain [foo] is
    ready; its command table holds [ping] and [fail] and is an ordinary
    object.  The names [toString] and [__proto__] are absent from the
    table, but [domain[name]] reads what the table inherits: for [toString]
    [exec] applies [Object.prototype.toString] and returns a string, no
    future at all; for [__proto__] it tries to apply [Object.prototype]
    and throws a TypeError. *)
Theorem exec_inherited_name_is_not_rejected :
  ready Examples.ready_proxy = true
  /\ command "toString" Examples.ready_proxy = None
  /\ exec "toString" [] Examples.ready_proxy
     = Return (VStr "[object Object]")
         (log (Invoke "foo" "toString" []) Examples.ready_proxy)
  /\ command "__proto__" Examples.ready_proxy = None
  /\ exec "__proto__" [] Examples.ready_proxy
     = Throw (VError "TypeError")
         (log (Invoke "foo" "__proto__" []) Examples.ready_proxy)
  /\ command "doesNotExist" Examples.ready_proxy = None
  /\ exec "doesNotExist" [] Examples.ready_proxy
     = Return (VPromise 5)
         (set_promises (promises Examples.ready_proxy ++ [rejected_cell])
            Examples.ready_proxy).
Proof.
  repeat (apply conj; [vm_compute; reflexivity |]). vm_compute. reflexivity.
Qed.

Lemma promise_returns w : exists p w', promise w = Return p w'.
Proof.
  unfold promise. destruct (_connectionPromise w); [eauto |].
  destruct (ready w); unfold Promise_resolve, Promise_reject, alloc; eauto.
Qed.

Lemma run_execConnected_throw name params w e w' :
  run_execConnected name params w = Throw e w' ->
  exists f, property name w = Some f /\ f params = CmdThrows e
            /\ w' = log (Invoke (_domainName w) name params) w.
Proof.
  rewrite run_execConnected_property.
  destruct (property name w) as [f |]; [| discriminate].
  unfold apply_command, bind, update, throw, ret, alloc.
  destruct (f params) eqn:E; [| discriminate ..].
  intros [= -> <-]. eauto.
Qed.

Lemma run_execConnected_command_throws name params w f e :
  property name w = Some f -> f params = CmdThrows e ->
  run_execConnected name params w
  = Throw e (log (Invoke (_domainName w) name params) w).
Proof.
  rewrite run_execConnected_property. intros -> Hf.
  unfold apply_command, bind, update, throw. rewrite Hf. reflexivity.
Qed.

(** [exec] throws on the ready path only, and only what the function it
    applies throws. *)
Lemma exec_throw name params w e w' :
  exec name params w = Throw e w' ->
  ready w = true
  /\ exists f, property name w = Some f /\ f params = CmdThrows e
               /\ w' = log (Invoke (_domainName w) name params) w.
Proof.
  unfold exec. destruct (ready w).
  - intros H. split; [reflexivity |].
    eapply run_execConnected_throw, H.
  - destruct (_connectionPromise w); discriminate.
Qed.

(** On the deferred path an exception of the command rejects the future
    that [exec] returned. *)
Lemma deferred_job_command_throws name params w f e v r :
  property name w = Some f -> f params = CmdThrows e ->
  is_pending r w = true ->
  outcome_of r (run_job (deferred_job name params v r) w) = Some (Rejected e).
Proof.
  intros Hc Hf Hp. unfold run_job, deferred_job. cbn.
  rewrite (run_execConnected_command_throws _ _ _ _ _ Hc Hf).
  apply outcome_of_settle. exact Hp.
Qed.

(** C5: the claim fails on the code.  On the ready proxy of the domain
    [foo], whose command [fail] throws, [exec("fail", 1)] throws the
    command's exception to its caller: no future is returned.  The same
    call made before the proxy is ready takes the deferred path of [exec]:
    it returns a future, and when the command throws in the job, that
    future is rejected with the exception. *)
Theorem exec_ready_path_throws_to_caller :
  ready Examples.ready_proxy = true
  /\ exec "fail" [VNum 1] Examples.ready_proxy
     = Throw (VError "RemoteError")
         (log (Invoke "foo" "fail" [VNum 1]) Examples.ready_proxy)
  /\ ready Examples.fresh = false
  /\ (exists w1, exec "fail" [VNum 1] Examples.fresh = Return (VPromise 2) w1)
  /\ outcome_of 2 (run Examples.deferred_failure Examples.fresh)
     = Some (Rejected (VError "RemoteError"))
  /\ trace (run Examples.deferred_failure Examples.fresh)
     = [Connect true 0; LoadDomains "/domains/foo.js" true 3;
        Invoke "foo" "fail" [VNum 1]]
  /\ ~ (forall w name params, exists r w', exec name params w = Return r w').
Proof.
  repeat (apply conj; [vm_compute; reflexivity |]).
  split; [eexists; vm_compute; reflexivity |].
  repeat (apply conj; [vm_compute; reflexivity |]).
  intros H.
  destruct (H Examples.ready_proxy "fail" [VNum 1]) as (r & w' & E).
  vm_compute in E. discriminate E.
Qed.

End Observers.

Section Relays.

Import Lib.

Implicit Types (w : World) (c : Connection) (k e : string) (evs : list string).

Lemma getListeners_on_eq k l c :
  getListeners k (on k l c) = getListeners k c ++ [l].
Proof. unfold getListeners at 1, on. cbn. rewrite lookup_insert_eq. reflexivity. Qed.

Lemma getListeners_on_ne k k' l c :
  k <> k' -> getListeners k' (on k l c) = getListeners k' c.
Proof.
  intros Hne. unfold getListeners, on. cbn.
  rewrite lookup_insert_ne by exact Hne. reflexivity.
Qed.

Lemma event_key_inj n e e' : event_key n e = event_key n e' -> e = e'.
Proof.
  unfold event_key. intros H.
  apply (inj (String.app n)) in H. apply (inj (String.app ":")) in H. exact H.
Qed.

Lemma length_zero_nil {A} (l : list A) : length l = 0 <-> l = [].
Proof. destruct l; cbn; split; intros; (reflexivity || discriminate). Qed.

(** One round of the [forEach] loop: the key of the event gets a relay if
    it had no listener, every other key keeps its listeners. *)
Lemma refresh_event_at n c e :
  getListeners (event_key n e) (refresh_event n c e)
  = match getListeners (event_key n e) c with
    | [] => [relay e]
    | ls => ls
    end.
Proof.
  unfold refresh_event. case_bool_decide as H.
  - apply length_zero_nil in H. rewrite getListeners_on_eq, H. reflexivity.
  - destruct (getListeners (event_key n e) c); [contradiction H |]; reflexivity.
Qed.

Lemma refresh_event_other n c e k :
  k <> event_key n e ->
  getListeners k (refresh_event n c e) = getListeners k c.
Proof.
  intros Hne. unfold refresh_event. case_bool_decide; [| reflexivity].
  apply getListeners_on_ne. congruence.
Qed.

Lemma refresh_event_keeps n c e k :
  getListeners k c <> [] ->
  getListeners k (refresh_event n c e) = getListeners k c.
Proof.
  intros Hne. destruct (decide (k = event_key n e)) as [-> |].
  - rewrite refresh_event_at.
    destruct (getListeners (event_key n e) c); [contradiction Hne |]; reflexivity.
  - apply refresh_event_other. assumption.
Qed.

Lemma refresh_loop_keeps n evs : forall c k,
  getListeners k c <> [] ->
  getListeners k (foldl (refresh_event n) c evs) = getListeners k c.
Proof.
  induction evs as [| e0 evs IH]; intros c k Hne; [reflexivity |].
  cbn [foldl]. rewrite IH; rewrite refresh_event_keeps; auto.
Qed.

Lemma refresh_loop_other n evs : forall c k,
  (forall e, e ∈ evs -> k <> event_key n e) ->
  getListeners k (foldl (refresh_event n) c evs) = getListeners k c.
Proof.
  induction evs as [| e0 evs IH]; intros c k Hk; [reflexivity |].
  cbn [foldl]. rewrite IH.
  - apply refresh_event_other, Hk. left.
  - intros e He. apply Hk. right. exact He.
Qed.

Lemma refresh_loop_installs n evs : forall c e,
  e ∈ evs -> getListeners (event_key n e) c = [] ->
  getListeners (event_key n e) (foldl (refresh_event n) c evs) = [relay e].
Proof.
  induction evs as [| e0 evs IH]; intros c e Hin Hnil.
  - inversion Hin.
  - cbn [foldl]. destruct (decide (e = e0)) as [-> | Hne].
    + rewrite refresh_loop_keeps; rewrite refresh_event_at, Hnil; done.
    + apply IH.
      * apply elem_of_cons in Hin as [? | ?]; [contradiction | assumption].
      * rewrite refresh_event_other; [exact Hnil |].
        intros H. apply event_key_inj in H. contradiction.
Qed.



(** The loop touches the listener table only. *)
Lemma refresh_loop_tables n evs : forall c,
  let c' := foldl (refresh_event n) c evs in
  is_connected c' = is_connected c /\ domains c' = domains c
  /\ domainEvents c' = domainEvents c.
Proof.
  induction evs as [| e0 evs IH]; intros c; [done |].
  cbn [foldl] in *. destruct (IH (refresh_event n c e0)) as (-> & -> & ->).
  unfold refresh_event. case_bool_decide; done.
Qed.

(** Every listener found after the loop was there before, or is the relay
    of an advertised event under that event's key. *)
Lemma refresh_loop_only_relays n evs : forall c k l,
  l ∈ getListeners k (foldl (refresh_event n) c evs) ->
  l ∈ getListeners k c
  \/ exists e, e ∈ evs /\ k = event_key n e /\ l = relay e.
Proof.
  induction evs as [| e0 evs IH]; intros c k l Hl; [left; exact Hl |].
  cbn [foldl] in Hl. apply IH in Hl as [Hl | (e & He & -> & ->)].
  - destruct (decide (k = event_key n e0)) as [-> | Hne].
    + rewrite refresh_event_at in Hl.
      destruct (getListeners (event_key n e0) c) eqn:E.
      * apply list_elem_of_singleton in Hl as ->.
        right. exists e0. split; [left | done].
      * left. exact Hl.
    + rewrite refresh_event_other in Hl by exact Hne. left. exact Hl.
  - right. exists e. split; [right; exact He | done].
Qed.

Lemma step_refreshInterface w evs :
  domainEvents (connection w) !! _domainName w = Some evs ->
  step call_refreshInterface w
  = set_connection (foldl (refresh_event (_domainName w)) (connection w) evs) w.
Proof.
  intros H. cbn. unfold refreshInterface, events_of. rewrite H. reflexivity.
Qed.






(** C8.  Once [refreshInterface] has run, the key of an advertised event
    holds the relay of that event (given that the key held none or that
    relay before), and every listener it added is the relay of an event
    under that event's key.  When the Connection fires the key with
    arguments [args], the proxy emits the bare event once, with [args]. *)
Theorem relay_reemits_under_bare_name w evs domainEvent args
    (Hev : domainEvents (connection w) !! _domainName w = Some evs)
    (Hin : domainEvent ∈ evs)
    (Hown : getListeners (event_key (_domainName w) domainEvent) (connection w) = []
            \/ getListeners (event_key (_domainName w) domainEvent) (connection w)
               = [relay domainEvent]) :
  let key := event_key (_domainName w) domainEvent in
  let w1 := step call_refreshInterface w in
  getListeners key (connection w1) = [relay domainEvent]
  /\ emit key args w1 = Return () (log (EmitEvent domainEvent args) w1)
  /\ trace (log (EmitEvent domainEvent args) w1)
     = trace w ++ [EmitEvent domainEvent args]
  /\ (forall k l, l ∈ getListeners k (connection w1) ->
        l ∈ getListeners k (connection w)
        \/ exists e, e ∈ evs /\ k = event_key (_domainName w) e /\ l = relay e).
Proof.
  cbn zeta. rewrite (step_refreshInterface w evs Hev).
  assert (getListeners (event_key (_domainName w) domainEvent)
            (foldl (refresh_event (_domainName w)) (connection w) evs)
          = [relay domainEvent]) as Hkey.
  { destruct Hown as [H | H].
    - apply refresh_loop_installs; assumption.
    - rewrite refresh_loop_keeps; rewrite H; done. }
  split; [exact Hkey |]. split; [| split; [reflexivity |]].
  - unfold emit. cbn [connection set_connection]. rewrite Hkey. reflexivity.
  - intros k l. cbn [connection set_connection]. apply refresh_loop_only_relays.
Qed.

Lemma relay_reemits_under_bare_name_witness :
  emit "foo:changed" [VObj [("x", VNum 1)]]
    (step call_refreshInterface Examples.connected_proxy)
  = Return ()
      (log (EmitEvent "changed" [VObj [("x", VNum 1)]])
         (step call_refreshInterface Examples.connected_proxy)).
Proof.
  apply (relay_reemits_under_bare_name Examples.connected_proxy ["changed"]
           "changed" [VObj [("x", VNum 1)]]).
  - vm_compute. reflexivity.
  - left.
  - left. vm_compute. reflexivity.
Defined.

End Relays.

(** ** Invariants of the event loop *)

Section Statements.

Import Lib.

(** The methods that only allocate promises, register reactions and log
    effects preserve every property that these three steps preserve. *)
Variable G : World -> Prop.

Hypothesis G_log : forall e w, G w -> G (log e w).
Hypothesis G_alloc : forall c w,
  reactions_of c = [] -> G w -> G (set_promises (promises w ++ [c]) w).
Hypothesis G_then : forall q f g w, G w -> G (world_of (then_ q f g w)).

Implicit Types (w : World).

Lemma preserves_ret {A} (a : A) : preserves G (ret a).
Proof. intros w H. exact H. Qed.

Lemma preserves_throw {A} e : preserves G (@throw A e).
Proof. intros w H. exact H. Qed.

Lemma preserves_bind {A B} (m : M A) (k : A -> M B) :
  preserves G m -> (forall a, preserves G (k a)) -> preserves G (bind m k).
Proof.
  intros Hm Hk w H. unfold bind. specialize (Hm w H).
  destruct (m w) as [a w' | e w']; [apply Hk |]; exact Hm.
Qed.

Lemma preserves_update (f : World -> World) :
  (forall w, G w -> G (f w)) -> preserves G (update f).
Proof. intros Hf w H. apply Hf, H. Qed.

Lemma preserves_alloc c : reactions_of c = [] -> preserves G (alloc c).
Proof. intros Hc w H. cbn. apply G_alloc; assumption. Qed.

Lemma preserves_then_ q f g : preserves G (then_ q f g).
Proof. intros w H. apply G_then, H. Qed.

Lemma preserves_promise : preserves G promise.
Proof.
  intros w H. unfold promise. destruct (_connectionPromise w); [exact H |].
  destruct (ready w); apply preserves_alloc; done.
Qed.

Lemma preserves_reject :
  preserves G (let* p := Promise_reject in ret (VPromise p)).
Proof.
  apply preserves_bind; [by apply preserves_alloc | intros; apply preserves_ret].
Qed.

Lemma preserves_apply_command domain name fn params :
  preserves G (apply_command domain name fn params).
Proof.
  unfold apply_command.
  apply preserves_bind; [apply preserves_update, G_log |].
  intros _. destruct (fn params).
  - apply preserves_throw.
  - apply preserves_ret.
  - apply preserves_bind; [by apply preserves_alloc | intros; apply preserves_ret].
Qed.

Lemma preserves_run_execConnected name params :
  preserves G (run_execConnected name params).
Proof.
  intros w H. unfold run_execConnected. destruct (_ ≫= _).
  - apply preserves_apply_command, H.
  - apply preserves_reject, H.
Qed.

Lemma preserves_exec name params : preserves G (exec name params).
Proof.
  intros w H. unfold exec. destruct (ready w).
  - apply preserves_run_execConnected, H.
  - destruct (_connectionPromise w).
    + revert w H. apply preserves_bind;
        [apply preserves_then_ | intros; apply preserves_ret].
    + apply preserves_reject, H.
Qed.

Lemma preserves_loadDomains path b : preserves G (loadDomains path b).
Proof.
  apply preserves_bind; [by apply preserves_alloc |]. intros p.
  apply preserves_bind; [apply preserves_update, G_log | intros; apply preserves_ret].
Qed.

Lemma preserves__load : preserves G _load.
Proof.
  intros w H. unfold _load.
  apply (preserves_bind (loadDomains (_domainPath w) true)); [| | exact H];
    [apply preserves_loadDomains |]. intros l.
  apply preserves_bind; [apply preserves_then_ |]. intros p1.
  apply preserves_bind; [apply preserves_then_ |]. intros p2.
  apply preserves_ret.
Qed.

End Statements.

Section HeapInvariant.

Import Lib.

(** A property of the promise heap and the job queue, indexed by the
    targets that the running code holds, is an invariant of the event loop
    when the steps of the promise runtime preserve it. *)
Variable G : list nat -> World -> Prop.

Hypothesis G_frame : forall ts w w',
  promises w' = promises w -> jobs w' = jobs w -> G ts w -> G ts w'.
Hypothesis G_alloc : forall ts c w,
  reactions_of c = [] -> G ts w -> G ts (set_promises (promises w ++ [c]) w).
Hypothesis G_then : forall ts q f g w,
  G ts w -> G ts (world_of (then_ q f g w)).
Hypothesis G_settle : forall ts t o w, t ∈ ts -> G ts w -> G ts (settle t o w).
Hypothesis G_resolve : forall ts t v w, t ∈ ts -> G ts w -> G ts (resolve t v w).
Hypothesis G_pop : forall ts j js w,
  jobs w = j :: js -> G ts w -> G (target j :: ts) (set_jobs js w).
Hypothesis G_weaken : forall ts ts' w, ts' ⊆ ts -> G ts w -> G ts' w.
Hypothesis G_external : forall ts t c w,
  promises w !! t = Some c -> external c = true -> G ts w -> G (t :: ts) w.

Implicit Types (w : World) (ts : list nat).

Lemma heap_log ts e w : G ts w -> G ts (log e w).
Proof. apply G_frame; reflexivity. Qed.

Lemma heap_update ts (f : World -> World) :
  (forall w, promises (f w) = promises w /\ jobs (f w) = jobs w) ->
  preserves (G ts) (update f).
Proof. intros Hf w H. cbn. destruct (Hf w). eapply G_frame; eauto. Qed.

Lemma heap_refreshInterface ts : preserves (G ts) refreshInterface.
Proof.
  intros w H. unfold refreshInterface. destruct (events_of w); [| exact H].
  cbn. eapply G_frame; [| | exact H]; reflexivity.
Qed.

Lemma heap_call ts k arg : preserves (G ts) (call k arg).
Proof.
  destruct k; cbn [call].
  - apply preserves__load; auto using heap_log.
  - apply preserves_bind; [by apply heap_update |]. intros _.
    apply preserves_bind; [by apply heap_update |]. intros _.
    apply preserves_bind; [apply heap_refreshInterface |]. intros _.
    apply preserves_ret.
  - intros w H. cbn. apply heap_log, H.
  - apply preserves_run_execConnected; auto using heap_log.
Qed.

Lemma heap_run_job ts j w : target j ∈ ts -> G ts w -> G ts (run_job j w).
Proof.
  intros Ht H. unfold run_job. destruct (handler j) as [k |].
  - pose proof (heap_call ts k (outcome_value (input j)) w H) as H'.
    destruct (call k _ w) as [v w' | e w'].
    + apply G_resolve; assumption.
    + apply G_settle; assumption.
  - destruct (input j); [apply G_resolve | apply G_settle]; assumption.
Qed.

Lemma heap_on_close ts args : preserves (G ts) (on_close args).
Proof.
  unfold on_close.
  apply preserves_bind; [by apply heap_update |]. intros _.
  apply preserves_bind; [by apply heap_update |]. intros _.
  destruct args as [| [] ?]; try apply preserves_throw.
  apply preserves_bind; [apply preserves_then_, G_then |]. intros q.
  by apply heap_update.
Qed.

Lemma heap_call_listener ts l args : preserves (G ts) (call_listener l args).
Proof.
  destruct l; cbn [call_listener].
  - apply heap_on_close.
  - by apply heap_update.
  - by apply heap_update.
Qed.

Lemma heap_call_all ts ls args : preserves (G ts) (call_all ls args).
Proof.
  induction ls as [| l ls IH]; cbn [call_all]; [apply preserves_ret |].
  apply preserves_bind; [apply heap_call_listener | intros _; exact IH].
Qed.

Lemma heap_do_settle ts p o w : G ts w -> G ts (do_settle p o w).
Proof.
  intros H. unfold do_settle. destruct (promises w !! p) as [c |] eqn:E; [| exact H].
  destruct (external c) eqn:X; [| exact H].
  apply (G_weaken (p :: ts)); [set_solver |].
  pose proof (G_external ts p c w E X H) as H'.
  destruct o; [apply G_resolve | apply G_settle]; (exact H' || left).
Qed.

(** Every action of the event loop keeps the property. *)
Lemma heap_step (a : action) w : G [] w -> G [] (step a w).
Proof.
  intros H. destruct a; cbn [step].
  - exact H.
  - apply preserves_promise; auto.
  - apply preserves_exec; auto using heap_log.
  - apply heap_refreshInterface, H.
  - destruct (jobs w) as [| j js] eqn:E; [exact H |].
    apply (G_weaken [target j]); [set_solver |].
    apply heap_run_job; [left |]. apply G_pop; assumption.
  - apply G_alloc; done.
  - apply heap_do_settle, H.
  - unfold emit. apply heap_call_all, H.
  - eapply G_frame; [| | exact H]; reflexivity.
  - eapply G_frame; [| | exact H]; reflexivity.
Qed.

Lemma heap_run (l : list action) : forall w, G [] w -> G [] (run l w).
Proof.
  induction l as [| a l IH]; intros w H; [exact H |].
  apply IH, heap_step, H.
Qed.

End HeapInvariant.

Section Waiting.

Import Lib.

Implicit Types (w : World) (p q r t : nat) (ts : list nat) (c : pcell).

Lemma subscribe_cases p x w :
  (exists c rs, promises w !! p = Some c /\ state c = Pending rs
     /\ subscribe p x w
        = set_promises (<[p := {| state := Pending (rs ++ [x]);
                                  external := external c |}]> (promises w)) w)
  \/ (exists c o, promises w !! p = Some c /\ state c = Settled o
        /\ subscribe p x w = set_jobs (jobs w ++ [job_of o x]) w)
  \/ (promises w !! p = None /\ subscribe p x w = w).
Proof.
  unfold subscribe. destruct (promises w !! p) as [c |] eqn:E; [| by right; right].
  destruct (state c) eqn:S; [left | right; left]; eauto.
Qed.

Lemma settle_cases p o w :
  (exists c rs, promises w !! p = Some c /\ state c = Pending rs
     /\ settle p o w
        = set_jobs (jobs w ++ (job_of o <$> rs))
            (set_promises (<[p := {| state := Settled o;
                                     external := external c |}]> (promises w)) w))
  \/ (is_pending p w = false /\ settle p o w = w).
Proof.
  unfold settle, is_pending.
  destruct (promises w !! p) as [c |] eqn:E; [| by right].
  destruct (state c) eqn:S; [left | right]; eauto.
Qed.

Lemma is_pending_alloc q c w :
  q < length (promises w) ->
  is_pending q (set_promises (promises w ++ [c]) w) = is_pending q w.
Proof.
  intros H. unfold is_pending. cbn. rewrite lookup_app_l by exact H. reflexivity.
Qed.

Lemma is_pending_insert q p c w :
  promises w !! p = Some c ->
  forall c', is_pending q (set_promises (<[p := c']> (promises w)) w)
  = if decide (p = q)
    then match state c' with Pending _ => true | Settled _ => false end
    else is_pending q w.
Proof.
  intros E c'. unfold is_pending. cbn. destruct (decide (p = q)) as [-> | Hne].
  - rewrite list_lookup_insert_eq by (eapply lookup_lt_Some, E). reflexivity.
  - rewrite list_lookup_insert_ne by exact Hne. reflexivity.
Qed.

Lemma is_pending_subscribe q p x w :
  is_pending q (subscribe p x w) = is_pending q w.
Proof.
  destruct (subscribe_cases p x w)
    as [(c & rs & E & S & ->) | [(c & o & E & S & ->) | (E & ->)]];
    [| reflexivity ..].
  rewrite (is_pending_insert _ _ _ _ E). destruct (decide (p = q)) as [-> |]; [| done].
  unfold is_pending. rewrite E, S. reflexivity.
Qed.

Lemma lookup_subscribe_external q p x w c' :
  promises (subscribe p x w) !! q = Some c' ->
  exists c, promises w !! q = Some c /\ external c = external c'
            /\ (q <> p -> c = c')
            /\ (forall y, y ∈ reactions_of c' -> y ∈ reactions_of c \/ (q = p /\ y = x)).
Proof.
  destruct (subscribe_cases p x w)
    as [(c & rs & E & S & ->) | [(c & o & E & S & ->) | (E & ->)]]; cbn.
  - destruct (decide (p = q)) as [-> | Hne].
    + rewrite list_lookup_insert_eq by (eapply lookup_lt_Some, E).
      intros [= <-]. exists c. split; [done |]. split; [done |].
      split; [done |]. unfold reactions_of. cbn. rewrite S.
      intros y [Hy | Hy%list_elem_of_singleton]%elem_of_app; [by left | by right].
    + rewrite list_lookup_insert_ne by exact Hne. intros H. exists c'.
      repeat split; try done. intros; by left.
  - intros H. exists c'. repeat split; try done. intros; by left.
  - intros H. exists c'. repeat split; try done. intros; by left.
Qed.

Lemma length_subscribe p x w :
  length (promises (subscribe p x w)) = length (promises w).
Proof.
  destruct (subscribe_cases p x w)
    as [(c & rs & E & S & ->) | [(c & o & E & S & ->) | (E & ->)]]; cbn;
    [apply length_insert | done ..].
Qed.

Lemma jobs_subscribe p x w :
  jobs (subscribe p x w) = jobs w
  \/ exists o, jobs (subscribe p x w) = jobs w ++ [job_of o x].
Proof.
  destruct (subscribe_cases p x w)
    as [(c & rs & E & S & ->) | [(c & o & E & S & ->) | (E & ->)]]; cbn; eauto.
Qed.

Lemma waits_for_subscribe p r ts q x w :
  (is_pending p w = true -> derived x <> r) ->
  waits_for p r ts w -> waits_for p r ts (subscribe q x w).
Proof.
  intros Hx (Hp & Hr & Hext & H). unfold waits_for.
  rewrite length_subscribe, is_pending_subscribe.
  split; [done |]. split; [done |]. split.
  - intros c' Hc'. apply lookup_subscribe_external in Hc' as (c & Hc & <- & _).
    eauto.
  - intros Hpend. destruct (H Hpend) as (Hts & Hrp & Hjobs & Hreact).
    split; [done |]. split; [by rewrite is_pending_subscribe |]. split.
    + destruct (jobs_subscribe q x w) as [-> | [o ->]]; [done |].
      apply Forall_app. split; [done |]. constructor; [| constructor].
      cbn. auto.
    + intros q' c' Hne Hc'.
      apply lookup_subscribe_external in Hc' as (c & Hc & _ & _ & Hy).
      apply Forall_forall. intros y [Hin | [_ ->]]%Hy; [| auto].
      specialize (Hreact q' c Hne Hc). rewrite Forall_forall in Hreact. auto.
Qed.


Lemma waits_for_alloc p r ts c w :
  reactions_of c = [] ->
  waits_for p r ts w ->
  waits_for p r ts (set_promises (promises w ++ [c]) w).
Proof.
  intros Hc (Hp & Hr & Hext & H). unfold waits_for. cbn [promises set_promises jobs].
  rewrite length_app, !is_pending_alloc by done. cbn [length].
  split; [lia |]. split; [lia |]. split.
  - intros c'. rewrite lookup_app_l by done. apply Hext.
  - intros Hpend. destruct (H Hpend) as (Hts & Hrp & Hjobs & Hreact).
    split; [done |]. split; [done |]. split; [done |].
    intros q c' Hne [Hc' | [_ Hc']]%lookup_app_Some; [eauto |].
    destruct (q - length (promises w)); [| done]. injection Hc' as <-.
    rewrite Hc. constructor.
Qed.

Lemma waits_for_settle p r ts q o w :
  (is_pending p w = true -> q <> r) ->
  waits_for p r ts w -> waits_for p r ts (settle q o w).
Proof.
  intros Hq (Hp & Hr & Hext & H).
  destruct (settle_cases q o w) as [(c & rs & E & S & ->) | [_ ->]]; [| done].
  unfold waits_for. cbn [promises set_promises set_jobs jobs].
  rewrite length_insert.
  split; [done |]. split; [done |]. split.
  - intros c'. destruct (decide (q = r)) as [-> | Hne].
    + rewrite list_lookup_insert_eq by done. intros [= <-]. cbn. eauto.
    + rewrite list_lookup_insert_ne by done. apply Hext.
  - change (is_pending p (set_jobs ?j ?x)) with (is_pending p x).
    change (is_pending r (set_jobs ?j ?x)) with (is_pending r x).
    rewrite !(is_pending_insert _ _ _ _ E). cbn [state].
    destruct (decide (q = p)) as [-> | Hne]; [done |].
    intros Hpend. destruct (H Hpend) as (Hts & Hrp & Hjobs & Hreact).
    specialize (Hq Hpend). destruct (decide (q = r)); [done |].
    split; [done |]. split; [done |]. split.
    + apply Forall_app. split; [done |]. apply Forall_fmap.
      specialize (Hreact q c Hne E). unfold reactions_of in Hreact.
      rewrite S in Hreact. eapply Forall_impl; [exact Hreact |].
      intros x Hx. destruct o; exact Hx.
    + intros q' c' Hne'. destruct (decide (q = q')) as [-> | Hqq].
      * rewrite list_lookup_insert_eq by (eapply lookup_lt_Some, E).
        intros [= <-]. constructor.
      * rewrite list_lookup_insert_ne by done. eauto.
Qed.

Lemma waits_for_resolve p r ts q v w :
  (is_pending p w = true -> q <> r) ->
  waits_for p r ts w -> waits_for p r ts (resolve q v w).
Proof.
  intros Hq H. unfold resolve.
  destruct v; try (apply waits_for_settle; assumption).
  case_bool_decide.
  - apply waits_for_settle; assumption.
  - apply waits_for_subscribe; assumption.
Qed.

Lemma waits_for_pop p r ts j js w :
  jobs w = j :: js ->
  waits_for p r ts w -> waits_for p r (target j :: ts) (set_jobs js w).
Proof.
  intros Hj (Hp & Hr & Hext & H).
  split; [done |]. split; [done |]. split; [done |].
  intros Hpend. destruct (H Hpend) as (Hts & Hrp & Hjobs & Hreact).
  rewrite Hj in Hjobs. inversion_clear Hjobs.
  split; [by constructor |]. done.
Qed.

Lemma waits_for_weaken p r ts ts' w :
  ts' ⊆ ts -> waits_for p r ts w -> waits_for p r ts' w.
Proof.
  intros Hsub (Hp & Hr & Hext & H).
  split; [done |]. split; [done |]. split; [done |].
  intros Hpend. destruct (H Hpend) as (Hts & Hrp & Hjobs & Hreact).
  split; [| done]. rewrite Forall_forall in *. auto.
Qed.

Lemma waits_for_token p r ts t w :
  t ∈ ts -> waits_for p r ts w -> is_pending p w = true -> t <> r.
Proof.
  intros Ht (_ & _ & _ & H) Hpend. destruct (H Hpend) as (Hts & _).
  rewrite Forall_forall in Hts. auto.
Qed.

Lemma waits_for_fresh p r ts w :
  waits_for p r ts w -> length (promises w) <> r.
Proof. intros (_ & Hr & _). lia. Qed.

(** [then_] *)
Lemma waits_for_then_ p r ts q f g w :
  waits_for p r ts w -> waits_for p r ts (world_of (then_ q f g w)).
Proof.
  intros H. cbn -[subscribe]. apply waits_for_subscribe.
  - intros _. cbn. eapply waits_for_fresh, H.
  - apply waits_for_alloc; done.
Qed.


Lemma waits_for_frame p r ts w w' :
  promises w' = promises w -> jobs w' = jobs w ->
  waits_for p r ts w -> waits_for p r ts w'.
Proof.
  intros Hp Hj H. unfold waits_for, is_pending in *. rewrite Hp, Hj. exact H.
Qed.

Lemma waits_for_external p r ts t c w :
  promises w !! t = Some c -> external c = true ->
  waits_for p r ts w -> waits_for p r (t :: ts) w.
Proof.
  intros Hc Hx (Hp & Hr & Hext & H).
  split; [done |]. split; [done |]. split; [done |].
  intros Hpend. destruct (H Hpend) as (Hts & Hrest).
  split; [| done]. constructor; [| done].
  intros ->. rewrite (Hext c Hc) in Hx. discriminate.
Qed.

(** While [p] is pending no action of the event loop settles a promise
    that waits for [p]. *)
Lemma waits_for_run p r (l : list action) w :
  waits_for p r [] w -> waits_for p r [] (run l w).
Proof.
  apply (heap_run (waits_for p r)).
  - apply waits_for_frame.
  - intros; by apply waits_for_alloc.
  - intros; by apply waits_for_then_.
  - intros ts t o w' Ht H. apply waits_for_settle; [| exact H].
    eapply waits_for_token; eassumption.
  - intros ts t v w' Ht H. apply waits_for_resolve; [| exact H].
    eapply waits_for_token; eassumption.
  - intros; by apply waits_for_pop.
  - intros ts ts' w' Hsub H. eapply waits_for_weaken; eassumption.
  - intros; by eapply waits_for_external.
Qed.

Lemma waits_for_pending p r ts w :
  waits_for p r ts w -> is_pending p w = true -> is_pending r w = true.
Proof. intros (_ & _ & _ & H) Hp. by destruct (H Hp) as (_ & ? & _). Qed.

Lemma is_pending_lt p w : is_pending p w = true -> p < length (promises w).
Proof.
  unfold is_pending. destruct (promises w !! p) eqn:E; [| discriminate].
  intros _. eapply lookup_lt_Some, E.
Qed.

Lemma exec_deferred name params p w :
  ready w = false -> _connectionPromise w = Some p ->
  exec name params w
  = Return (VPromise (length (promises w)))
      (subscribe p (deferred_reaction name params (length (promises w)))
         (set_promises
            (promises w ++ [{| state := Pending []; external := false |}]) w)).
Proof. unfold exec. intros -> ->. reflexivity. Qed.

Lemma waits_for_deferred name params p w :
  well_formed [] w -> p < length (promises w) ->
  waits_for p (length (promises w)) []
    (subscribe p (deferred_reaction name params (length (promises w)))
       (set_promises
          (promises w ++ [{| state := Pending []; external := false |}]) w)).
Proof.
  intros (_ & Hjobs & Hreact) Hlt.
  set (w0 := set_promises _ w).
  assert (waits_for p (length (promises w)) [] w0) as H0.
  { unfold w0. split; [| split; [| split]]; cbn [promises set_promises jobs].
    - rewrite length_app. lia.
    - rewrite length_app. cbn. lia.
    - intros c. rewrite lookup_alloc. by intros [= <-].
    - intros _. split; [constructor |]. split; [| split].
      + unfold is_pending. cbn. rewrite lookup_alloc. reflexivity.
      + eapply Forall_impl; [exact Hjobs |]. cbn. intros; lia.
      + intros q c _ [Hc | [_ Hc]]%lookup_app_Some.
        * rewrite Forall_forall in Hreact.
          eapply Forall_impl; [eapply Hreact, list_elem_of_lookup_2, Hc |].
          cbn. intros; lia.
        * destruct (q - length (promises w)); [| done]. injection Hc as <-.
          constructor. }
  destruct H0 as (Hp & Hr & Hext & H).
  destruct (subscribe_cases p (deferred_reaction name params (length (promises w))) w0)
    as [(c & rs & E & S & ->) | [(c & o & E & S & Heq) | (E & Heq)]].
  - split; [| split; [| split]]; cbn [promises set_promises jobs].
    + by rewrite length_insert.
    + by rewrite length_insert.
    + intros c'. rewrite list_lookup_insert_ne by lia. apply Hext.
    + rewrite !(is_pending_insert _ _ _ _ E). cbn [state].
      rewrite decide_True by done. rewrite decide_False by lia.
      intros _. assert (is_pending p w0 = true) as Hp0.
      { unfold is_pending. rewrite E, S. done. }
      destruct (H Hp0) as (Hts & Hrp & Hj & Hre).
      split; [done |]. split; [done |]. split; [done |].
      intros q c' Hne. rewrite list_lookup_insert_ne by done. eauto.
  - rewrite Heq. split; [exact Hp |]. split; [exact Hr |]. split; [exact Hext |].
    unfold is_pending at 1. cbn [promises set_jobs]. rewrite E, S. discriminate.
  - exfalso. unfold w0 in E. cbn in E.
    apply lookup_ge_None in E. rewrite length_app in E. lia.
Qed.

End Waiting.

Section WellFormed.

Import Lib.

Implicit Types (w : World) (p q r t : nat) (ts : list nat) (c : pcell).

Lemma well_formed_frame ts w w' :
  promises w' = promises w -> jobs w' = jobs w ->
  well_formed ts w -> well_formed ts w'.
Proof. intros Hp Hj H. unfold well_formed in *. rewrite Hp, Hj. exact H. Qed.

Lemma well_formed_alloc ts c w :
  reactions_of c = [] ->
  well_formed ts w -> well_formed ts (set_promises (promises w ++ [c]) w).
Proof.
  intros Hc (Hts & Hj & Hr). unfold well_formed. cbn [promises set_promises jobs].
  rewrite length_app. cbn [length].
  split; [| split].
  - eapply Forall_impl; [exact Hts |]. cbn. intros; lia.
  - eapply Forall_impl; [exact Hj |]. cbn. intros; lia.
  - apply Forall_app. split.
    + eapply Forall_impl; [exact Hr |]. cbn. intros c' Hc'.
      eapply Forall_impl; [exact Hc' |]. cbn. intros; lia.
    + constructor; [| constructor]. rewrite Hc. constructor.
Qed.

Lemma well_formed_subscribe ts q x w :
  derived x < length (promises w) ->
  well_formed ts w -> well_formed ts (subscribe q x w).
Proof.
  intros Hx (Hts & Hj & Hr).
  destruct (subscribe_cases q x w)
    as [(c & rs & E & S & ->) | [(c & o & E & S & ->) | (E & ->)]];
    unfold well_formed; cbn [promises set_promises set_jobs jobs];
    rewrite ?length_insert.
  - split; [done |]. split; [done |].
    apply Forall_insert; [done |]. unfold reactions_of. cbn.
    apply Forall_app. split; [| by repeat constructor].
    rewrite Forall_forall in Hr. specialize (Hr c (list_elem_of_lookup_2 _ _ _ E)).
    unfold reactions_of in Hr. by rewrite S in Hr.
  - split; [done |]. split; [| done].
    apply Forall_app. split; [done |]. by repeat constructor.
  - done.
Qed.

Lemma well_formed_then_ ts q f g w :
  well_formed ts w -> well_formed ts (world_of (then_ q f g w)).
Proof.
  intros H. cbn -[subscribe]. apply well_formed_subscribe.
  - cbn. rewrite length_app. cbn. lia.
  - by apply well_formed_alloc.
Qed.

Lemma well_formed_settle ts q o w :
  well_formed ts w -> well_formed ts (settle q o w).
Proof.
  intros (Hts & Hj & Hr).
  destruct (settle_cases q o w) as [(c & rs & E & S & ->) | [_ ->]]; [| done].
  unfold well_formed. cbn [promises set_promises set_jobs jobs].
  rewrite length_insert.
  split; [done |]. split.
  - apply Forall_app. split; [done |]. apply Forall_fmap.
    rewrite Forall_forall in Hr. specialize (Hr c (list_elem_of_lookup_2 _ _ _ E)).
    unfold reactions_of in Hr. rewrite S in Hr.
    eapply Forall_impl; [exact Hr |]. intros x Hx. destruct o; exact Hx.
  - apply Forall_insert; [done |]. constructor.
Qed.

Lemma well_formed_resolve ts q v w :
  q < length (promises w) ->
  well_formed ts w -> well_formed ts (resolve q v w).
Proof.
  intros Hq H. unfold resolve.
  destruct v; try (by apply well_formed_settle).
  case_bool_decide; [by apply well_formed_settle |].
  by apply well_formed_subscribe.
Qed.

Lemma well_formed_token ts t w :
  t ∈ ts -> well_formed ts w -> t < length (promises w).
Proof. intros Ht (Hts & _). rewrite Forall_forall in Hts. auto. Qed.

Lemma well_formed_pop ts j js w :
  jobs w = j :: js ->
  well_formed ts w -> well_formed (target j :: ts) (set_jobs js w).
Proof.
  intros Hjobs (Hts & Hj & Hr). rewrite Hjobs in Hj. inversion_clear Hj.
  split; [by constructor |]. split; done.
Qed.

Lemma well_formed_weaken ts ts' w :
  ts' ⊆ ts -> well_formed ts w -> well_formed ts' w.
Proof.
  intros Hsub (Hts & Hrest). split; [| done]. rewrite Forall_forall in *. auto.
Qed.

Lemma well_formed_external ts t c w :
  promises w !! t = Some c -> well_formed ts w -> well_formed (t :: ts) w.
Proof.
  intros Hc (Hts & Hrest). split; [| done].
  constructor; [| done]. eapply lookup_lt_Some, Hc.
Qed.

Lemma well_formed_step (a : action) w :
  well_formed [] w -> well_formed [] (step a w).
Proof.
  apply (heap_step well_formed).
  - apply well_formed_frame.
  - intros; by apply well_formed_alloc.
  - intros; by apply well_formed_then_.
  - intros; by apply well_formed_settle.
  - intros ts t v w' Ht H. apply well_formed_resolve; [| exact H].
    eapply well_formed_token; eassumption.
  - intros; by apply well_formed_pop.
  - intros ts ts' w' Hsub H. eapply well_formed_weaken; eassumption.
  - intros; by eapply well_formed_external.
Qed.

Lemma well_formed_new h domainName domainPath w :
  NodeDomain h domainName domainPath = Some w -> well_formed [] w.
Proof.
  unfold NodeDomain. destruct (Regex.RegExp _); [| discriminate].
  intros [= <-]. cbn. repeat constructor.
Qed.

Lemma reachable_well_formed w : reachable w -> well_formed [] w.
Proof.
  induction 1 as [? ? ? ? Hnew | ? ? ? IH ?].
  - eapply well_formed_new, Hnew.
  - apply well_formed_step, IH.
Qed.

End WellFormed.

Section Deferred.

Import Lib.

Implicit Types (w : World) (p q r t : nat) (ts : list nat) (c : pcell).

Lemma trace_subscribe q x w : trace (subscribe q x w) = trace w.
Proof.
  destruct (subscribe_cases q x w)
    as [(c & rs & E & S & ->) | [(c & o & E & S & ->) | (E & ->)]]; reflexivity.
Qed.

Lemma trace_settle q o w : trace (settle q o w) = trace w.
Proof.
  destruct (settle_cases q o w) as [(c & rs & E & S & ->) | [_ ->]]; reflexivity.
Qed.

Lemma trace_resolve q v w : trace (resolve q v w) = trace w.
Proof.
  unfold resolve. destruct v; try apply trace_settle.
  case_bool_decide; [apply trace_settle | apply trace_subscribe].
Qed.

Lemma connection_subscribe q x w : connection (subscribe q x w) = connection w.
Proof.
  destruct (subscribe_cases q x w)
    as [(c & rs & E & S & ->) | [(c & o & E & S & ->) | (E & ->)]]; reflexivity.
Qed.

Lemma run_deferred_job_invokes name params v r w f :
  command name w = Some f ->
  trace (run_job (deferred_job name params v r) w)
  = trace w ++ [Invoke (_domainName w) name params].
Proof.
  intros Hc. unfold run_job, deferred_job. cbn [handler input target call outcome_value].
  rewrite run_execConnected_property, (property_own _ _ _ Hc).
  unfold apply_command, bind, update, throw, ret, alloc.
  destruct (f params); rewrite ?trace_settle, ?trace_resolve; reflexivity.
Qed.

Lemma registered_frame p x w w' :
  promises w' = promises w -> registered p x w -> registered p x w'.
Proof. intros Hp H. unfold registered, is_pending in *. rewrite Hp. exact H. Qed.

Lemma registered_alloc p x c w :
  registered p x w -> registered p x (set_promises (promises w ++ [c]) w).
Proof.
  intros (Hlt & H). unfold registered. rewrite is_pending_alloc by done.
  cbn [promises set_promises]. rewrite length_app. split; [lia |].
  intros Hp. rewrite lookup_app_l by done. auto.
Qed.

Lemma registered_subscribe p x q y w :
  registered p x w -> registered p x (subscribe q y w).
Proof.
  intros (Hlt & H). unfold registered.
  rewrite length_subscribe, is_pending_subscribe. split; [done |].
  intros Hp. destruct (H Hp) as (c & Hc & Hx).
  destruct (subscribe_cases q y w)
    as [(c' & rs & E & S & ->) | [(c' & o & E & S & ->) | (E & ->)]];
    cbn [promises set_promises set_jobs]; [| by eauto ..].
  destruct (decide (q = p)) as [-> | Hne].
  - rewrite list_lookup_insert_eq by done. eexists. split; [reflexivity |].
    assert (c = c') as -> by congruence.
    unfold reactions_of in *. cbn. rewrite S in Hx.
    apply elem_of_app. by left.
  - rewrite list_lookup_insert_ne by done. eauto.
Qed.

Lemma registered_settle p x q o w :
  registered p x w -> registered p x (settle q o w).
Proof.
  intros (Hlt & H).
  destruct (settle_cases q o w) as [(c & rs & E & S & ->) | [_ ->]]; [| done].
  unfold registered. cbn [promises set_promises set_jobs].
  rewrite length_insert. split; [done |].
  change (is_pending p (set_jobs ?j ?y)) with (is_pending p y).
  rewrite (is_pending_insert _ _ _ _ E). cbn [state].
  destruct (decide (q = p)) as [-> | Hne]; [done |].
  rewrite list_lookup_insert_ne by done. exact H.
Qed.

Lemma registered_resolve p x q v w :
  registered p x w -> registered p x (resolve q v w).
Proof.
  intros H. unfold resolve. destruct v; try by apply registered_settle.
  case_bool_decide; [by apply registered_settle | by apply registered_subscribe].
Qed.

Lemma registered_run p x (l : list action) w :
  registered p x w -> registered p x (run l w).
Proof.
  apply (heap_run (fun _ => registered p x)).
  - intros ts w1 w2 Hp _. by apply registered_frame.
  - intros; by apply registered_alloc.
  - intros ts q f g w' H. cbn -[subscribe].
    by apply registered_subscribe, registered_alloc.
  - intros; by apply registered_settle.
  - intros; by apply registered_resolve.
  - intros ts j js w' _ H. by eapply registered_frame.
  - done.
  - done.
Qed.

(** When [p] settles, the reactions registered on it become jobs. *)
Lemma registered_settle_job p x o w :
  registered p x w -> is_pending p w = true ->
  job_of o x ∈ jobs (settle p o w).
Proof.
  intros (_ & H) Hp. destruct (H Hp) as (c & Hc & Hx).
  unfold settle. rewrite Hc. unfold reactions_of in Hx.
  destruct (state c); [| by apply elem_of_nil in Hx]. cbn.
  apply elem_of_app. right. by apply list_elem_of_fmap_2.
Qed.

Lemma registered_deferred name params p w :
  p < length (promises w) ->
  registered p (deferred_reaction name params (length (promises w)))
    (subscribe p (deferred_reaction name params (length (promises w)))
       (set_promises
          (promises w ++ [{| state := Pending []; external := false |}]) w)).
Proof.
  intros Hlt.
  unfold registered. rewrite length_subscribe, is_pending_subscribe.
  cbn [promises set_promises]. rewrite length_app. split; [lia |].
  rewrite is_pending_alloc by exact Hlt. intros Hp.
  unfold is_pending in Hp. unfold subscribe. cbn [promises set_promises].
  rewrite lookup_app_l by done.
  destruct (promises w !! p) as [c |] eqn:E; [| done].
  destruct (state c) eqn:S; [| done]. cbn.
  rewrite list_lookup_insert_eq by (rewrite length_app; lia).
  eexists. split; [reflexivity |]. unfold reactions_of. cbn.
  apply elem_of_app. right. apply list_elem_of_singleton. reflexivity.
Qed.

(** A deferred call made when the readiness future is fulfilled already is
    scheduled at once. *)
Lemma deferred_on_fulfilled name params p v w :
  p < length (promises w) -> outcome_of p w = Some (Fulfilled v) ->
  deferred_job name params v (length (promises w))
  ∈ jobs (subscribe p (deferred_reaction name params (length (promises w)))
            (set_promises
               (promises w ++ [{| state := Pending []; external := false |}]) w)).
Proof.
  intros Hlt Hv. unfold outcome_of in Hv. unfold subscribe.
  cbn [promises set_promises]. rewrite lookup_app_l by exact Hlt.
  destruct (promises w !! p) as [c |]; [| discriminate].
  destruct (state c); [discriminate |]. injection Hv as ->. cbn.
  apply elem_of_app. right. apply list_elem_of_singleton. reflexivity.
Qed.

Lemma well_formed_run (l : list action) : forall w,
  well_formed [] w -> well_formed [] (run l w).
Proof.
  induction l as [| a l IH]; intros w H; [exact H |].
  apply IH, well_formed_step, H.
Qed.

End Deferred.

Section ProxyInvariant.

Import Lib.

Implicit Types (w : World) (p q r t : nat) (c : Connection).

Lemma outside_heap_subscribe q x w :
  outside_heap (subscribe q x w) = outside_heap w.
Proof.
  destruct (subscribe_cases q x w)
    as [(c & rs & E & S & ->) | [(c & o & E & S & ->) | (E & ->)]]; reflexivity.
Qed.

Lemma outside_heap_settle q o w : outside_heap (settle q o w) = outside_heap w.
Proof.
  destruct (settle_cases q o w) as [(c & rs & E & S & ->) | [_ ->]]; reflexivity.
Qed.

Lemma outside_heap_resolve q v w : outside_heap (resolve q v w) = outside_heap w.
Proof.
  unfold resolve. destruct v; try apply outside_heap_settle.
  case_bool_decide; [apply outside_heap_settle | apply outside_heap_subscribe].
Qed.

Lemma outside_heap_do_settle q o w : outside_heap (do_settle q o w) = outside_heap w.
Proof.
  unfold do_settle. destruct (_ !! _) as [c |]; [| done].
  destruct (external c); [| done].
  destruct o; [apply outside_heap_resolve | apply outside_heap_settle].
Qed.

Lemma proxy_inv_frame w w' :
  outside_heap w' = outside_heap w -> proxy_inv w -> proxy_inv w'.
Proof.
  unfold outside_heap, proxy_inv. intros [= _ _ Hl Hp _ Hc _].
  rewrite Hl, Hp, Hc. done.
Qed.

Lemma proxy_inv_log e w : proxy_inv w -> proxy_inv (log e w).
Proof. done. Qed.

Lemma proxy_inv_alloc (c : pcell) w :
  proxy_inv w -> proxy_inv (set_promises (promises w ++ [c]) w).
Proof. done. Qed.

Lemma proxy_inv_then_ q f g w :
  proxy_inv w -> proxy_inv (world_of (then_ q f g w)).
Proof.
  intros H. cbn -[subscribe].
  eapply proxy_inv_frame; [apply outside_heap_subscribe | exact H].
Qed.

Lemma getListeners_off re k c :
  getListeners k (off re c)
  = if Regex.test re k then [] else getListeners k c.
Proof.
  unfold getListeners, off. cbn [events set_events].
  set (keep := fun kv : string * list listener => Regex.test re kv.1 = false).
  destruct (Regex.test re k) eqn:T.
  - assert (filter keep (events c) !! k = None) as ->; [| done].
    apply map_lookup_filter_None. right. intros ls _. unfold keep. cbn. congruence.
  - destruct (events c !! k) as [ls |] eqn:E.
    + assert (filter keep (events c) !! k = Some ls) as ->; [| done].
      apply map_lookup_filter_Some. done.
    + assert (filter keep (events c) !! k = None) as ->; [| done].
      apply map_lookup_filter_None. by left.
Qed.

Lemma close_only_refresh n evs c :
  (forall k, close_handler ∈ getListeners k c -> k = "close") ->
  forall k, close_handler ∈ getListeners k (foldl (refresh_event n) c evs) ->
            k = "close".
Proof.
  intros H k Hk.
  apply refresh_loop_only_relays in Hk as [Hk | (e & _ & _ & [=])]. auto.
Qed.

Lemma proxy_inv_refreshInterface : preserves proxy_inv refreshInterface.
Proof.
  intros w [H1 H2]. unfold refreshInterface. destruct (events_of w); [| done].
  split; [exact H1 |]. cbn. by apply close_only_refresh.
Qed.

Lemma proxy_inv_call k arg : preserves proxy_inv (call k arg).
Proof.
  destruct k; cbn [call].
  - apply preserves__load; auto using proxy_inv_then_.
  - intros w [H1 H2]. unfold bind, update, ret.
    set (w' := set_connectionPromise None (set_loaded true w)).
    assert (proxy_inv w') as H' by (split; [done | exact H2]).
    pose proof (proxy_inv_refreshInterface w' H') as Hr.
    destruct (refreshInterface w'); exact Hr.
  - intros w H. exact H.
  - apply preserves_run_execConnected; auto using proxy_inv_then_.
Qed.

Lemma proxy_inv_run_job j w : proxy_inv w -> proxy_inv (run_job j w).
Proof.
  intros H. unfold run_job. destruct (handler j) as [k |].
  - pose proof (proxy_inv_call k (outcome_value (input j)) w H) as H'.
    destruct (call k _ w) as [v w' | e w'];
      (eapply proxy_inv_frame; [| exact H']);
      [apply outside_heap_resolve | apply outside_heap_settle].
  - destruct (input j); (eapply proxy_inv_frame; [| exact H]);
      [apply outside_heap_resolve | apply outside_heap_settle].
Qed.

(** The close handler, called with a future. *)
Lemma on_close_future p rest w :
  on_close (VPromise p :: rest) w
  = Return ()
      (set_connectionPromise (Some (length (promises w)))
         (subscribe p {| on_fulfilled := Some load; on_rejected := None;
                         derived := length (promises w) |}
            (set_promises
               (promises w ++ [{| state := Pending []; external := false |}])
               (set_loaded false
                  (set_connection (off (domainPrefix w) (connection w)) w))))).
Proof. reflexivity. Qed.

Lemma proxy_inv_on_close p rest :
  preserves proxy_inv (on_close (VPromise p :: rest)).
Proof.
  intros w [H1 H2]. rewrite on_close_future. cbn [world_of].
  pose proof (outside_heap_subscribe p
    {| on_fulfilled := Some load; on_rejected := None;
       derived := length (promises w) |}
    (set_promises
       (promises w ++ [{| state := Pending []; external := false |}])
       (set_loaded false
          (set_connection (off (domainPrefix w) (connection w)) w)))) as E.
  injection E as _ _ El _ _ Ec _.
  split.
  - change (_connectionPromise (set_connectionPromise ?x ?y)) with x.
    change (_domainLoaded (set_connectionPromise ?x ?y)) with (_domainLoaded y).
    rewrite El. cbn. done.
  - intros k. change (connection (set_connectionPromise ?x ?y)) with (connection y).
    rewrite Ec. cbn [connection set_promises set_loaded set_connection].
    rewrite getListeners_off. destruct (Regex.test _ k); [by intros ?%elem_of_nil |].
    apply H2.
Qed.

Lemma proxy_inv_call_all ls args :
  (close_handler ∈ ls -> exists p rest, args = VPromise p :: rest) ->
  preserves proxy_inv (call_all ls args).
Proof.
  induction ls as [| l ls IH]; intros Hargs; cbn [call_all]; [apply preserves_ret |].
  apply preserves_bind.
  - destruct l; cbn [call_listener].
    + destruct Hargs as (p & rest & ->); [left |]. apply proxy_inv_on_close.
    + intros w H. exact H.
    + intros w H. exact H.
  - intros _. apply IH. intros H. apply Hargs. right. exact H.
Qed.

Lemma getListeners_on_foreign k k' id c :
  close_handler ∈ getListeners k (on k' (foreign id) c) ->
  close_handler ∈ getListeners k c.
Proof.
  destruct (decide (k' = k)) as [-> | Hne].
  - rewrite getListeners_on_eq. intros [H | H]%elem_of_app; [done |].
    by apply list_elem_of_singleton in H.
  - by rewrite getListeners_on_ne.
Qed.

Lemma proxy_inv_step (a : action) w :
  allowed a -> proxy_inv w -> proxy_inv (step a w).
Proof.
  intros Ha H. destruct a; cbn [step].
  - exact H.
  - apply preserves_promise; auto.
  - apply preserves_exec; auto using proxy_inv_then_.
  - apply proxy_inv_refreshInterface, H.
  - destruct (jobs w) as [| j js]; [exact H |]. apply proxy_inv_run_job. exact H.
  - exact H.
  - eapply proxy_inv_frame; [apply outside_heap_do_settle | exact H].
  - unfold emit. apply proxy_inv_call_all; [| exact H].
    intros Hin. apply Ha. destruct H as [_ H2]. apply H2, Hin.
  - destruct H as [H1 H2]. split; [exact H1 | exact H2].
  - destruct H as [H1 H2]. split; [exact H1 |].
    intros k Hk. cbn in Hk. apply getListeners_on_foreign in Hk. auto.
Qed.

Lemma proxy_inv_new h domainName domainPath w :
  NodeDomain h domainName domainPath = Some w -> proxy_inv w.
Proof.
  unfold NodeDomain. destruct (Regex.RegExp _); [| discriminate].
  intros [= <-]. split; [done |]. cbn. intros k.
  unfold getListeners, on. cbn.
  destruct (decide (k = "close")) as [-> | Hne]; [done |].
  rewrite lookup_insert_ne by done. rewrite lookup_empty.
  by intros ?%elem_of_nil.
Qed.

Lemma reachable_proxy_inv w : reachable w -> proxy_inv w.
Proof.
  induction 1 as [? ? ? ? Hnew | ? ? ? IH ?].
  - eapply proxy_inv_new, Hnew.
  - by apply proxy_inv_step.
Qed.

Lemma reachable_run (l : list action) : forall w,
  reachable w -> Forall allowed l -> reachable (run l w).
Proof.
  induction l as [| a l IH]; intros w Hw Hl; [exact Hw |].
  inversion_clear Hl. apply IH; [| assumption]. by apply reachable_step.
Qed.

End ProxyInvariant.

Section Patterns.

Import Lib.

Import Regex.

Lemma list_ascii_of_string_app (s1 s2 : string) :
  list_ascii_of_string (s1 +:+ s2)
  = list_ascii_of_string s1 ++ list_ascii_of_string s2.
Proof.
  induction s1 as [| c s1 IH]; [reflexivity |].
  change (c :: list_ascii_of_string (s1 +:+ s2)
          = c :: (list_ascii_of_string s1 ++ list_ascii_of_string s2)).
  f_equal. exact IH.
Qed.

Lemma atom_of_literal (c : ascii) : c ∉ metachars -> atom_of c = Some (AChar c).
Proof.
  intros Hc. unfold atom_of.
  rewrite bool_decide_eq_false_2.
  - rewrite bool_decide_eq_false_2 by exact Hc. reflexivity.
  - intros ->. apply Hc. vm_compute. set_solver.
Qed.

Lemma literal_not_star (c : ascii) : c ∉ metachars -> c <> star.
Proof. intros Hc ->. apply Hc. vm_compute. set_solver. Qed.

Lemma parse_items_literal (lit : list ascii) :
  Forall (fun c => c ∉ metachars) lit ->
  parse_items (lit ++ list_ascii_of_string ":*")
  = Some (((fun c => (AChar c, false)) <$> lit)
          ++ [(AChar (Ascii.ascii_of_nat 58), true)]).
Proof.
  induction 1 as [| c lit Hc Hlit IH]; [reflexivity |].
  cbn [app parse_items fmap list_fmap]. rewrite (atom_of_literal c Hc).
  destruct lit as [| q lit'].
  - reflexivity.
  - cbn [app] in *. inversion_clear Hlit as [| ? ? Hq _].
    rewrite bool_decide_eq_false_2 by (by apply literal_not_star).
    rewrite IH. reflexivity.
Qed.

Lemma RegExp_prefix_pattern compile (name : string) :
  literal name ->
  RegExp compile ("^" +:+ name +:+ ":*") = Some (prefix_pattern name).
Proof.
  intros H. unfold RegExp, parse.
  change (list_ascii_of_string ("^" +:+ name +:+ ":*"))
    with (caret :: list_ascii_of_string (name +:+ ":*")).
  cbv beta iota. rewrite bool_decide_eq_true_2 by reflexivity.
  rewrite list_ascii_of_string_app, (parse_items_literal _ H). reflexivity.
Qed.

Lemma match_star_always (a : atom) (k : list ascii -> bool) (s : list ascii) :
  (forall s', k s' = true) -> match_star a k s = true.
Proof.
  intros Hk. destruct s; cbn; rewrite Hk; [done | apply orb_true_r].
Qed.

Lemma match_here_prefix (lit s : list ascii) :
  match_here (((fun c => (AChar c, false)) <$> lit)
              ++ [(AChar (Ascii.ascii_of_nat 58), true)]) s = true
  <-> lit `prefix_of` s.
Proof.
  revert s. induction lit as [| c lit IH]; intros s.
  - cbn. split; [intros _; apply prefix_nil |].
    intros _. by apply match_star_always.
  - cbn [fmap list_fmap app match_here]. destruct s as [| c' s].
    + split; [done |]. intros H. by apply prefix_nil_inv in H.
    + rewrite andb_true_iff, IH. cbn. rewrite bool_decide_eq_true.
      split.
      * intros [-> H]. by apply prefix_cons.
      * intros H. split; [by apply prefix_cons_inv_1 in H |].
        by apply prefix_cons_inv_2 in H.
Qed.

(** The pattern [^name:*] matches the keys that start with the name. *)
Lemma test_prefix_pattern (name key : string) :
  test (prefix_pattern name) key = true <-> exists rest, key = name +:+ rest.
Proof.
  unfold test, prefix_pattern.
  rewrite match_here_prefix. split.
  - intros [k Hk]. exists (string_of_list_ascii k).
    rewrite <- (string_of_list_ascii_of_string key), Hk.
    rewrite <- (string_of_list_ascii_of_string (name +:+ _)).
    rewrite list_ascii_of_string_app, list_ascii_of_string_of_list_ascii.
    reflexivity.
  - intros [rest ->]. exists (list_ascii_of_string rest).
    apply list_ascii_of_string_app.
Qed.

End Patterns.

Section Close.

Import Lib.

Implicit Types (w : World).

Lemma NodeDomain_literal h domainName domainPath w :
  Regex.literal domainName ->
  NodeDomain h domainName domainPath = Some w ->
  _domainName w = domainName /\ domainPrefix w = Regex.prefix_pattern domainName.
Proof.
  intros Hlit. unfold NodeDomain. rewrite (RegExp_prefix_pattern _ _ Hlit).
  intros [= <-]. done.
Qed.

Lemma connection_on_close p rest w :
  connection (world_of (on_close (VPromise p :: rest) w))
  = off (domainPrefix w) (connection w).
Proof.
  rewrite on_close_future. cbn [world_of].
  change (connection (set_connectionPromise ?x ?y)) with (connection y).
  pose proof (outside_heap_subscribe p
    {| on_fulfilled := Some load; on_rejected := None;
       derived := length (promises w) |}
    (set_promises
       (promises w ++ [{| state := Pending []; external := false |}])
       (set_loaded false
          (set_connection (off (domainPrefix w) (connection w)) w)))) as E.
  injection E as _ _ _ _ _ Ec _. exact Ec.
Qed.

(** What the close handler unsubscribes, for a proxy whose name is
    literal: the listeners under every key that starts with the name of the
    domain, whether a colon follows the name or not. *)
Lemma close_handler_unsubscribes_name_prefix p rest k w :
  domainPrefix w = Regex.prefix_pattern (_domainName w) ->
  getListeners k (connection (world_of (on_close (VPromise p :: rest) w)))
  = if Regex.test (Regex.prefix_pattern (_domainName w)) k then []
    else getListeners k (connection w).
Proof.
  intros Hre. rewrite connection_on_close, getListeners_off, Hre. reflexivity.
Qed.

(** The close handler leaves the proxy not ready, with a new readiness
    future: the load step chained on the future it was called with. *)
Lemma close_handler_resets p rest w :
  let r := length (promises w) in
  let w' := world_of (on_close (VPromise p :: rest) w) in
  _domainLoaded w' = false /\ ready w' = false
  /\ _connectionPromise w' = Some r
  /\ (forall c, promises w !! p = Some c ->
      exists c', promises w' !! p = Some c'
        /\ match state c with
           | Pending rs =>
               state c' = Pending (rs ++ [{| on_fulfilled := Some load;
                                             on_rejected := None;
                                             derived := r |}])
           | Settled o =>
               state c' = Settled o
               /\ jobs w' = jobs w ++ [{| handler := match o with
                                                     | Fulfilled _ => Some load
                                                     | Rejected _ => None
                                                     end;
                                          input := o; target := r |}]
           end).
Proof.
  cbn zeta. rewrite on_close_future. cbn [world_of].
  set (x := {| on_fulfilled := Some load; on_rejected := None;
               derived := length (promises w) |}).
  set (w0 := set_promises _ _).
  pose proof (outside_heap_subscribe p x w0) as E.
  injection E as _ _ El _ _ _ _.
  assert (_domainLoaded (set_connectionPromise (Some (length (promises w)))
                           (subscribe p x w0)) = false) as Hl by exact El.
  split; [exact Hl |]. split; [unfold ready; by rewrite Hl |].
  split; [reflexivity |].
  intros c Hc.
  change (promises (set_connectionPromise ?a ?y)) with (promises y).
  change (jobs (set_connectionPromise ?a ?y)) with (jobs y).
  assert (promises w0 !! p = Some c) as Hc0.
  { unfold w0. cbn. rewrite lookup_app_l; [done |]. eapply lookup_lt_Some, Hc. }
  unfold subscribe. rewrite Hc0. destruct (state c) eqn:S; cbn.
  - rewrite list_lookup_insert_eq by (eapply lookup_lt_Some, Hc0).
    eexists. split; reflexivity.
  - exists c. split; [exact Hc0 |]. split; [exact S |]. by destruct o.
Qed.

End Close.

Section Allocated.

Import Lib.

Implicit Types (w : World) (p q : nat).

Lemma length_settle q o w :
  length (promises (settle q o w)) = length (promises w).
Proof.
  destruct (settle_cases q o w) as [(c & rs & E & S & ->) | [_ ->]]; [| done].
  cbn. apply length_insert.
Qed.

Lemma length_resolve q v w :
  length (promises (resolve q v w)) = length (promises w).
Proof.
  unfold resolve. destruct v; try apply length_settle.
  case_bool_decide; [apply length_settle | apply length_subscribe].
Qed.

Lemma length_do_settle q o w :
  length (promises (do_settle q o w)) = length (promises w).
Proof.
  unfold do_settle. destruct (_ !! _) as [c |]; [| done].
  destruct (external c); [| done].
  destruct o; [apply length_resolve | apply length_settle].
Qed.

Lemma readiness_allocated_frame w w' :
  _connectionPromise w' = _connectionPromise w ->
  length (promises w) <= length (promises w') ->
  readiness_allocated w -> readiness_allocated w'.
Proof. intros Hp Hl H p. rewrite Hp. intros E. specialize (H p E). lia. Qed.

Lemma readiness_allocated_heap w w' :
  outside_heap w' = outside_heap w ->
  length (promises w') = length (promises w) ->
  readiness_allocated w -> readiness_allocated w'.
Proof.
  intros [= _ _ _ Hp _ _ _] Hl. apply readiness_allocated_frame; [exact Hp | lia].
Qed.

Lemma readiness_allocated_log e w :
  readiness_allocated w -> readiness_allocated (log e w).
Proof. intros H. exact H. Qed.

Lemma readiness_allocated_alloc (c : pcell) w :
  readiness_allocated w ->
  readiness_allocated (set_promises (promises w ++ [c]) w).
Proof.
  apply readiness_allocated_frame; [reflexivity |]. cbn. rewrite length_app. lia.
Qed.

Lemma readiness_allocated_then_ q f g w :
  readiness_allocated w -> readiness_allocated (world_of (then_ q f g w)).
Proof.
  intros H. cbn -[subscribe].
  eapply readiness_allocated_heap;
    [apply outside_heap_subscribe | apply length_subscribe |].
  apply readiness_allocated_alloc, H.
Qed.

Lemma readiness_allocated_refreshInterface :
  preserves readiness_allocated refreshInterface.
Proof.
  intros w H. unfold refreshInterface. destruct (events_of w); exact H.
Qed.

Lemma readiness_allocated_call k arg :
  preserves readiness_allocated (call k arg).
Proof.
  destruct k; cbn [call].
  - apply preserves__load;
      auto using readiness_allocated_log, readiness_allocated_alloc,
        readiness_allocated_then_.
  - intros w H. unfold bind, update, ret.
    set (w' := set_connectionPromise None (set_loaded true w)).
    assert (readiness_allocated w') as H' by (intros p Hp; discriminate Hp).
    pose proof (readiness_allocated_refreshInterface w' H') as Hr.
    destruct (refreshInterface w'); exact Hr.
  - intros w H. exact H.
  - apply preserves_run_execConnected;
      auto using readiness_allocated_log, readiness_allocated_alloc,
        readiness_allocated_then_.
Qed.

Lemma readiness_allocated_run_job j w :
  readiness_allocated w -> readiness_allocated (run_job j w).
Proof.
  intros H. unfold run_job. destruct (handler j) as [k |].
  - pose proof (readiness_allocated_call k (outcome_value (input j)) w H) as H'.
    destruct (call k _ w) as [v w' | e w'];
      (eapply readiness_allocated_heap; [| | exact H']);
      auto using outside_heap_resolve, outside_heap_settle, length_resolve,
        length_settle.
  - destruct (input j); (eapply readiness_allocated_heap; [| | exact H]);
      auto using outside_heap_resolve, outside_heap_settle, length_resolve,
        length_settle.
Qed.

Lemma readiness_allocated_on_close args :
  preserves readiness_allocated (on_close args).
Proof.
  unfold on_close. apply preserves_bind; [intros w H; exact H |]. intros _.
  apply preserves_bind; [intros w H; exact H |]. intros _.
  destruct args as [| [] ?]; try apply preserves_throw.
  intros w _. cbn -[subscribe]. intros q [= <-].
  change (promises (set_connectionPromise ?a ?y)) with (promises y).
  rewrite length_subscribe. cbn. rewrite length_app. cbn. lia.
Qed.

Lemma readiness_allocated_call_all ls args :
  preserves readiness_allocated (call_all ls args).
Proof.
  induction ls as [| l ls IH]; cbn [call_all]; [apply preserves_ret |].
  apply preserves_bind; [| intros _; exact IH].
  destruct l; cbn [call_listener].
  - apply readiness_allocated_on_close.
  - intros w H. exact H.
  - intros w H. exact H.
Qed.

Lemma readiness_allocated_step (a : action) w :
  readiness_allocated w -> readiness_allocated (step a w).
Proof.
  intros H. destruct a; cbn [step].
  - exact H.
  - apply preserves_promise;
      auto using readiness_allocated_log, readiness_allocated_alloc,
        readiness_allocated_then_.
  - apply preserves_exec;
      auto using readiness_allocated_log, readiness_allocated_alloc,
        readiness_allocated_then_.
  - apply readiness_allocated_refreshInterface, H.
  - destruct (jobs w) as [| j js]; [exact H |].
    apply readiness_allocated_run_job. exact H.
  - apply readiness_allocated_alloc, H.
  - eapply readiness_allocated_heap;
      [apply outside_heap_do_settle | apply length_do_settle | exact H].
  - unfold emit. apply readiness_allocated_call_all, H.
  - exact H.
  - exact H.
Qed.

Lemma readiness_allocated_new h domainName domainPath w :
  NodeDomain h domainName domainPath = Some w -> readiness_allocated w.
Proof.
  unfold NodeDomain. destruct (Regex.RegExp _); [| discriminate].
  intros [= <-] p. cbn. intros [= <-]. lia.
Qed.

(** In every state of a proxy, whatever happened since its construction,
    the readiness future is allocated and the heap is well formed. *)
Lemma constructed_run h domainName domainPath w0 (l : list action) :
  NodeDomain h domainName domainPath = Some w0 ->
  readiness_allocated (run l w0) /\ well_formed [] (run l w0).
Proof.
  intros Hnew. split.
  - pose proof (readiness_allocated_new _ _ _ _ Hnew) as H.
    clear Hnew. revert w0 H.
    induction l as [| a l IH]; intros w H; [exact H |].
    apply IH, readiness_allocated_step, H.
  - eapply well_formed_run, well_formed_new, Hnew.
Qed.

End Allocated.

(** ** The relays under the keys of the domain *)

Section OwnRelays.

Import Lib.

Variable n : string.

Implicit Types (w : World) (c : Connection) (e : string).

Lemma own_relays_frame w w' :
  outside_heap w' = outside_heap w -> own_relays n w -> own_relays n w'.
Proof.
  unfold outside_heap, own_relays. intros [= Hn _ _ _ _ Hc _].
  rewrite Hn, Hc. done.
Qed.

Lemma own_relays_then_ q f g w :
  own_relays n w -> own_relays n (world_of (then_ q f g w)).
Proof.
  intros H. cbn -[subscribe].
  eapply own_relays_frame; [apply outside_heap_subscribe | exact H].
Qed.

Lemma own_relays_refresh evs w :
  own_relays n w ->
  own_relays n (set_connection
                  (foldl (refresh_event (_domainName w)) (connection w) evs) w).
Proof.
  intros [Hn H]. split; [exact Hn |]. intros e. cbn [connection set_connection].
  rewrite Hn. destruct (H e) as [He | He].
  - destruct (decide (e ∈ evs)) as [Hin | Hout].
    + right. by apply refresh_loop_installs.
    + left. rewrite refresh_loop_other; [exact He |].
      intros e' He' Heq. apply event_key_inj in Heq. by subst.
  - right. rewrite refresh_loop_keeps; rewrite He; done.
Qed.

Lemma own_relays_refreshInterface : preserves (own_relays n) refreshInterface.
Proof.
  intros w H. unfold refreshInterface. destruct (events_of w); [| exact H].
  by apply own_relays_refresh.
Qed.

Lemma own_relays_off re w :
  own_relays n w -> own_relays n (set_connection (off re (connection w)) w).
Proof.
  intros [Hn H]. split; [exact Hn |]. intros e. cbn [connection set_connection].
  rewrite getListeners_off. destruct (Regex.test re _); [by left | apply H].
Qed.

Lemma own_relays_call k arg : preserves (own_relays n) (call k arg).
Proof.
  destruct k; cbn [call].
  - apply preserves__load; auto using own_relays_then_.
  - intros w H. unfold bind, update, ret.
    set (w' := set_connectionPromise None (set_loaded true w)).
    pose proof (own_relays_refreshInterface w' H) as Hr.
    destruct (refreshInterface w'); exact Hr.
  - intros w H. exact H.
  - apply preserves_run_execConnected; auto using own_relays_then_.
Qed.

Lemma own_relays_run_job j w : own_relays n w -> own_relays n (run_job j w).
Proof.
  intros H. unfold run_job. destruct (handler j) as [k |].
  - pose proof (own_relays_call k (outcome_value (input j)) w H) as H'.
    destruct (call k _ w) as [v w' | e w'];
      (eapply own_relays_frame; [| exact H']);
      [apply outside_heap_resolve | apply outside_heap_settle].
  - destruct (input j); (eapply own_relays_frame; [| exact H]);
      [apply outside_heap_resolve | apply outside_heap_settle].
Qed.

Lemma own_relays_on_close args : preserves (own_relays n) (on_close args).
Proof.
  unfold on_close. apply preserves_bind.
  { intros w H. by apply own_relays_off. }
  intros _. apply preserves_bind; [intros w H; exact H |]. intros _.
  destruct args as [| [] ?]; try apply preserves_throw.
  apply preserves_bind; [intros w H; by apply own_relays_then_ |].
  intros q w H. exact H.
Qed.

Lemma own_relays_call_all ls args : preserves (own_relays n) (call_all ls args).
Proof.
  induction ls as [| l ls IH]; cbn [call_all]; [apply preserves_ret |].
  apply preserves_bind; [| intros _; exact IH].
  destruct l; cbn [call_listener].
  - apply own_relays_on_close.
  - intros w H. exact H.
  - intros w H. exact H.
Qed.

Lemma own_relays_step (a : action) w :
  keeps_clear n a -> own_relays n w -> own_relays n (step a w).
Proof.
  intros Ha H. destruct a; cbn [step].
  - exact H.
  - apply preserves_promise; auto.
  - apply preserves_exec; auto using own_relays_then_.
  - apply own_relays_refreshInterface, H.
  - destruct (jobs w) as [| j js]; [exact H |]. apply own_relays_run_job. exact H.
  - exact H.
  - eapply own_relays_frame; [apply outside_heap_do_settle | exact H].
  - unfold emit. apply own_relays_call_all, H.
  - exact H.
  - destruct H as [Hn H]. split; [exact Hn |]. intros e. cbn.
    rewrite getListeners_on_ne by apply Ha. apply H.
Qed.

Lemma own_relays_run (l : list action) : forall w,
  Forall (keeps_clear n) l -> own_relays n w -> own_relays n (run l w).
Proof.
  induction l as [| a l IH]; intros w Hl H; [exact H |].
  inversion_clear Hl. apply IH; [assumption |]. by apply own_relays_step.
Qed.

Lemma event_key_not_close e : event_key n e <> "close".
Proof.
  intros H. apply (f_equal list_ascii_of_string) in H.
  unfold event_key in H. rewrite !list_ascii_of_string_app in H.
  assert (Ascii.ascii_of_nat 58 ∈ list_ascii_of_string "close") as Hin.
  { rewrite <- H. apply elem_of_app. right. left. }
  cbn in Hin.
  repeat (apply elem_of_cons in Hin as [Hin | Hin]; [discriminate Hin |]).
  by apply elem_of_nil in Hin.
Qed.

Lemma own_relays_new h domainPath w :
  NodeDomain h n domainPath = Some w -> own_relays n w.
Proof.
  unfold NodeDomain. destruct (Regex.RegExp _); [| discriminate].
  intros [= <-]. split; [reflexivity |]. intros e. left. cbn.
  rewrite getListeners_on_ne; [reflexivity |].
  intros H. by apply (event_key_not_close e).
Qed.

(** A proxy whose clients stay clear of its namespaced keys holds, under
    each of them, no listener or the relay of the event. *)
Lemma own_relays_reached h domainPath w0 (l : list action) :
  NodeDomain h n domainPath = Some w0 -> Forall (keeps_clear n) l ->
  own_relays n (run l w0).
Proof.
  intros Hnew Hl. apply own_relays_run; [exact Hl |].
  eapply own_relays_new, Hnew.
Qed.

End OwnRelays.

(** ** The life of a proxy *)

Section Lifecycle.

Import Lib.

Implicit Types (w : World).

Lemma reachable_fresh : reachable Examples.fresh.
Proof.
  apply (reachable_new Examples.ordinary "foo" "/domains/foo.js").
  vm_compute. reflexivity.
Qed.

Lemma reachable_failing_proxy : reachable Examples.failing_proxy.
Proof.
  apply reachable_run; [apply reachable_fresh |].
  repeat constructor.
Qed.

(** C3.  Take a proxy in any state after its construction that is not
    ready and has a readiness future [p], pending or settled.  [exec] looks
    nothing up and invokes nothing: it returns a new future [r] that is
    pending.  Whatever happens next, [r] stays pending for as long as [p] is
    pending, and at the moment [p] is fulfilled the job of the deferred call
    is scheduled; when [p] is fulfilled already, it is scheduled at once.
    That job consults the command table of the state in which it runs, and
    applies the command found there to the parameters of the call. *)
Theorem deferred_exec_waits_for_readiness h domainName domainPath w0
    (l0 : list action) name params p
    (Hnew : NodeDomain h domainName domainPath = Some w0)
    (Hnr : ready (run l0 w0) = false)
    (Hp : _connectionPromise (run l0 w0) = Some p) :
  let w := run l0 w0 in
  let r := length (promises w) in
  exists w1,
    exec name params w = Return (VPromise r) w1
    /\ trace w1 = trace w
    /\ is_pending r w1 = true
    /\ (forall l, is_pending p (run l w1) = true ->
          is_pending r (run l w1) = true
          /\ forall v, deferred_job name params v r
                       ∈ jobs (settle p (Fulfilled v) (run l w1)))
    /\ (forall v, outcome_of p w = Some (Fulfilled v) ->
          deferred_job name params v r ∈ jobs w1)
    /\ (forall w2 v f, command name w2 = Some f ->
          trace (run_job (deferred_job name params v r) w2)
          = trace w2 ++ [Invoke (_domainName w2) name params]).
Proof.
  cbn zeta.
  destruct (constructed_run h domainName domainPath w0 l0 Hnew) as [Hra Hwf].
  set (w := run l0 w0) in *.
  pose proof (Hra p Hp) as Hlt.
  eexists. split; [by apply exec_deferred |].
  pose proof (waits_for_deferred name params p w Hwf Hlt) as Hwait.
  pose proof (registered_deferred name params p w Hlt) as Hreg.
  split; [by rewrite trace_subscribe |]. split.
  - rewrite is_pending_subscribe. unfold is_pending. cbn.
    rewrite lookup_alloc. reflexivity.
  - split; [| split].
    + intros l Hl. split.
      * eapply waits_for_pending; [| exact Hl]. by apply waits_for_run.
      * intros v.
        change (deferred_job name params v (length (promises w)))
          with (job_of (Fulfilled v)
                  (deferred_reaction name params (length (promises w)))).
        apply registered_settle_job; [| exact Hl].
        by apply registered_run.
    + intros v Hv. by apply deferred_on_fulfilled.
    + intros w2 v f. apply run_deferred_job_invokes.
Qed.

Lemma deferred_exec_waits_for_readiness_witness :
  NodeDomain Examples.ordinary "foo" "/domains/foo.js" = Some Examples.fresh
  /\ ready (run [] Examples.fresh) = false
  /\ _connectionPromise (run [] Examples.fresh) = Some 1
  /\ command "ping" (run [] Examples.fresh) = None
  /\ let w := run [] Examples.fresh in
     let r := length (promises w) in
     exists w1,
       exec "ping" [VNum 1; VNum 2] w = Return (VPromise r) w1
       /\ trace w1 = trace w
       /\ is_pending r w1 = true
       /\ (forall l, is_pending 1 (run l w1) = true ->
             is_pending r (run l w1) = true
             /\ forall v, deferred_job "ping" [VNum 1; VNum 2] v r
                          ∈ jobs (settle 1 (Fulfilled v) (run l w1)))
       /\ (forall v, outcome_of 1 w = Some (Fulfilled v) ->
             deferred_job "ping" [VNum 1; VNum 2] v r ∈ jobs w1)
       /\ (forall w2 v f, command "ping" w2 = Some f ->
             trace (run_job (deferred_job "ping" [VNum 1; VNum 2] v r) w2)
             = trace w2 ++ [Invoke (_domainName w2) "ping" [VNum 1; VNum 2]]).
Proof.
  repeat (apply conj; [vm_compute; reflexivity |]).
  refine (deferred_exec_waits_for_readiness Examples.ordinary "foo"
            "/domains/foo.js" Examples.fresh [] "ping" [VNum 1; VNum 2] 1
            _ _ _);
    vm_compute; reflexivity.
Defined.

(** After a failed load the readiness future is still there and is
    fulfilled: a call of [exec] is scheduled at once, and is rejected when
    its job finds no command. *)
Example exec_after_failed_load :
  ready Examples.failed_proxy = false
  /\ _connectionPromise Examples.failed_proxy = Some 1
  /\ outcome_of 1 Examples.failed_proxy = Some (Fulfilled VUndefined)
  /\ jobs (step (call_exec "nope" []) Examples.failed_proxy)
     = [deferred_job "nope" [] VUndefined 5]
  /\ outcome_of 5 (run [call_exec "nope" []; tick; tick] Examples.failed_proxy)
     = Some (Rejected VUndefined).
Proof.
  repeat (apply conj; [vm_compute; reflexivity |]). vm_compute. reflexivity.
Qed.

(** Scenario A of the specification, from the first call to the reply:
    the deferred call is pending until the domain has loaded, the command
    is then invoked once with the parameters of the call, and the future
    of the call takes the outcome of the command. *)
Example scenario_A_resolves :
  command "ping" Examples.fresh = None
  /\ is_pending 2 (run (take 9 Examples.scenario_A) Examples.fresh) = true
  /\ trace (run Examples.scenario_A Examples.fresh)
     = [Connect true 0; LoadDomains "/domains/foo.js" true 3;
        Invoke "foo" "ping" [VNum 1; VNum 2]]
  /\ outcome_of 2 (run Examples.scenario_A Examples.fresh)
     = Some (Fulfilled (VStr "pong")).
Proof.
  repeat (apply conj; [vm_compute; reflexivity |]). vm_compute. reflexivity.
Qed.

(** Scenario C of the specification: the Connection of a ready proxy
    closes; the proxy is not ready at once and its relays are gone; once the
    Connection has reconnected and the domain has loaded again the proxy is
    ready and holds one relay per event. *)
Example scenario_C_reloads :
  ready Examples.ready_proxy = true
  /\ getListeners "foo:changed" (connection Examples.ready_proxy)
     = [relay "changed"]
  /\ ready (run Examples.closing Examples.ready_proxy) = false
  /\ getListeners "foo:changed"
       (connection (run Examples.closing Examples.ready_proxy)) = []
  /\ ready (run (Examples.closing ++ Examples.reloading) Examples.ready_proxy)
     = true
  /\ getListeners "foo:changed"
       (connection (run (Examples.closing ++ Examples.reloading)
                      Examples.ready_proxy))
     = [relay "changed"].
Proof.
  repeat (apply conj; [vm_compute; reflexivity |]). vm_compute. reflexivity.
Qed.

Lemma call_load_done_fields v w :
  let w' := world_of (call load_done v w) in
  _domainLoaded w' = true /\ _connectionPromise w' = None.
Proof.
  cbn [call]. unfold bind, update, ret, refreshInterface. cbn.
  destruct (events_of _); done.
Qed.

(** C2, as the code has it.  In every state of a proxy the readiness
    future is absent exactly when [_domainLoaded] is true; so it is absent
    whenever the proxy is ready.  The success branch of the load step sets
    [_domainLoaded] and clears the future.  The failure branch logs the
    error and assigns no field: after it the future is absent exactly when
    [_domainLoaded] was true before it. *)
Theorem pending_readiness_absent_iff_loaded w v err (Hreach : reachable w) :
  (_connectionPromise w = None <-> _domainLoaded w = true)
  /\ (ready w = true -> _connectionPromise w = None)
  /\ (let w' := world_of (call load_done v w) in
      _domainLoaded w' = true /\ _connectionPromise w' = None)
  /\ call load_failed err w
     = Return VUndefined (log (ConsoleError (_domainName w) err) w)
  /\ proxy_fields (world_of (call load_failed err w)) = proxy_fields w
  /\ (_connectionPromise (world_of (call load_failed err w)) = None
      <-> _domainLoaded w = true).
Proof.
  destruct (reachable_proxy_inv w Hreach) as [Hiff _].
  split; [exact Hiff |]. split.
  - unfold ready. intros [Hl _]%andb_true_iff. by apply Hiff.
  - split; [apply call_load_done_fields |].
    split; [reflexivity |]. split; [reflexivity |]. exact Hiff.
Qed.

Lemma pending_readiness_absent_iff_loaded_witness :
  reachable Examples.failing_proxy
  /\ (_connectionPromise Examples.failing_proxy = None
      <-> _domainLoaded Examples.failing_proxy = true)
  /\ (_connectionPromise
        (world_of (call load_failed (VStr "no such file") Examples.failing_proxy))
      = None
      <-> _domainLoaded Examples.failing_proxy = true).
Proof.
  split; [apply reachable_failing_proxy |].
  destruct (pending_readiness_absent_iff_loaded Examples.failing_proxy
              VUndefined (VStr "no such file") reachable_failing_proxy)
    as (H1 & _ & _ & _ & _ & H6).
  split; [exact H1 | exact H6].
Defined.

(** C2, as the specification has it, fails: the load of the domain fails,
    the failure branch runs, every promise is settled and no job is left,
    and the readiness future is still there. *)
Lemma load_failure_keeps_pending_readiness_counterexample :
  jobs Examples.failing_proxy
  = [{| handler := Some load_failed; input := Rejected (VStr "no such file");
        target := 4 |}]
  /\ _connectionPromise (step tick Examples.failing_proxy) = Some 1
  /\ Examples.failed_proxy = run [tick; tick] Examples.failing_proxy
  /\ trace Examples.failed_proxy
     = [Connect true 0; LoadDomains "/domains/foo.js" true 2;
        ConsoleError "foo" (VStr "no such file")]
  /\ jobs Examples.failed_proxy = []
  /\ all_settled Examples.failed_proxy = true
  /\ ready Examples.failed_proxy = false
  /\ _connectionPromise Examples.failed_proxy = Some 1
  /\ _connectionPromise Examples.failed_proxy <> None.
Proof.
  repeat (apply conj; [vm_compute; reflexivity |]).
  intros H. vm_compute in H. discriminate H.
Qed.


(** C1: the claim fails on the code.  The proxy of the domain [foo] is
    ready and relays [foo:changed]; a client listens for [foobar:changed]
    on the same Connection.  The Connection closes.  The handler leaves the
    proxy not ready with a new readiness future and removes the relay, as
    claimed; it also removes the client's listener, whose key does not
    start with [foo:]. *)
Theorem close_handler_unsubscribes_other_domain :
  let w := Examples.shared_proxy in
  let w' := run Examples.closing w in
  NodeDomain Examples.ordinary "foo" "/domains/foo.js" = Some Examples.fresh
  /\ w = run (Examples.connecting ++ Examples.load_succeeds
              ++ [env_on "foobar:changed" 7]) Examples.fresh
  /\ ready w = true
  /\ getListeners "foo:changed" (connection w) = [relay "changed"]
  /\ getListeners "foobar:changed" (connection w) = [foreign 7]
  /\ getListeners "close" (connection w) = [close_handler]
  /\ ready w' = false
  /\ _connectionPromise w' = Some 6
  /\ getListeners "foo:changed" (connection w') = []
  /\ getListeners "close" (connection w') = [close_handler]
  /\ getListeners "foobar:changed" (connection w') = [].
Proof.
  cbn zeta. repeat (apply conj; [vm_compute; reflexivity |]).
  vm_compute. reflexivity.
Qed.

(** The pattern of a domain whose name is a prefix of [close] matches the
    key [close]: the first close event removes the close handler itself. *)
Example close_handler_unsubscribes_itself :
  getListeners "close" (connection Examples.c_proxy) = [close_handler]
  /\ getListeners "close"
       (connection (run Examples.closing_early Examples.c_proxy)) = [].
Proof. split; vm_compute; reflexivity. Qed.

End Lifecycle.

(** ** Further properties of the proxy *)

Section FieldInvariant.

Import Lib.

(** A property of what lies outside the promise heap (the fields of the
    proxy, the Connection, the effects) is kept by every action that
    satisfies [ok] when the assignments of NodeDomain.js keep it and the
    Connection keeps it under [ok]. *)
Variable G : World -> Prop.
Variable ok : action -> Prop.

Hypothesis G_frame : forall w w',
  outside_heap w' = outside_heap w -> G w -> G w'.
Hypothesis G_log : forall e w, G w -> G (log e w).
Hypothesis G_refresh : forall evs w,
  G w -> G (set_connection
              (foldl (refresh_event (_domainName w)) (connection w) evs) w).
Hypothesis G_load_done : forall w,
  G w -> G (set_connectionPromise None (set_loaded true w)).
Hypothesis G_emit : forall key args w,
  ok (env_emit key args) -> G w -> G (world_of (emit key args w)).
Hypothesis G_tables : forall b ds evs w,
  ok (env_tables b ds evs) ->
  G w -> G (set_connection (Build_Connection b ds evs (events (connection w))) w).
Hypothesis G_on : forall key id w,
  ok (env_on key id) ->
  G w -> G (set_connection (on key (foreign id) (connection w)) w).

Implicit Types (w : World).

Lemma field_alloc (c : pcell) w : G w -> G (set_promises (promises w ++ [c]) w).
Proof. apply G_frame. reflexivity. Qed.

Lemma field_then_ q f g w : G w -> G (world_of (then_ q f g w)).
Proof.
  intros H. cbn -[subscribe].
  eapply G_frame; [apply outside_heap_subscribe |]. apply field_alloc, H.
Qed.

Lemma field_refreshInterface : preserves G refreshInterface.
Proof.
  intros w H. unfold refreshInterface. destruct (events_of w); [| exact H].
  apply G_refresh, H.
Qed.

Lemma field_call k arg : preserves G (call k arg).
Proof.
  destruct k; cbn [call].
  - apply preserves__load; auto using field_alloc, field_then_.
  - intros w H. unfold bind, update, ret.
    pose proof (field_refreshInterface _ (G_load_done w H)) as Hr.
    destruct (refreshInterface _); exact Hr.
  - intros w H. apply G_log, H.
  - apply preserves_run_execConnected; auto using field_alloc, field_then_.
Qed.

Lemma field_run_job j w : G w -> G (run_job j w).
Proof.
  intros H. unfold run_job. destruct (handler j) as [k |].
  - pose proof (field_call k (outcome_value (input j)) w H) as H'.
    destruct (call k _ w) as [v w' | e w'];
      (eapply G_frame; [| exact H']);
      [apply outside_heap_resolve | apply outside_heap_settle].
  - destruct (input j); (eapply G_frame; [| exact H]);
      [apply outside_heap_resolve | apply outside_heap_settle].
Qed.

Lemma field_step (a : action) w : ok a -> G w -> G (step a w).
Proof.
  intros Ha H. destruct a; cbn [step].
  - exact H.
  - apply preserves_promise; auto using field_alloc, field_then_.
  - apply preserves_exec; auto using field_alloc, field_then_.
  - apply field_refreshInterface, H.
  - destruct (jobs w) as [| j js]; [exact H |]. apply field_run_job.
    eapply G_frame; [| exact H]. reflexivity.
  - apply field_alloc, H.
  - eapply G_frame; [apply outside_heap_do_settle | exact H].
  - by apply G_emit.
  - by apply G_tables.
  - by apply G_on.
Qed.

Lemma field_run (l : list action) : forall w,
  Forall ok l -> G w -> G (run l w).
Proof.
  induction l as [| a l IH]; intros w Hl H; [exact H |].
  inversion_clear Hl. apply IH; [assumption |]. by apply field_step.
Qed.

End FieldInvariant.

Section Identity.

Import Lib.

Implicit Types (w : World).

Lemma identity_on_close args w :
  identity (world_of (on_close args w)) = identity w.
Proof.
  unfold on_close, bind, update, throw.
  destruct args as [| [] ?]; try reflexivity.
  cbn -[subscribe].
  pose proof (outside_heap_subscribe p
    {| on_fulfilled := Some load; on_rejected := None;
       derived := length (promises w) |}
    (set_promises
       (promises w ++ [{| state := Pending []; external := false |}])
       (set_loaded false
          (set_connection (off (domainPrefix w) (connection w)) w)))) as E.
  injection E as En Ep _ _ Ere _ _.
  unfold identity.
  change (_domainName (set_connectionPromise ?x ?y)) with (_domainName y).
  change (_domainPath (set_connectionPromise ?x ?y)) with (_domainPath y).
  change (domainPrefix (set_connectionPromise ?x ?y)) with (domainPrefix y).
  rewrite En, Ep, Ere. reflexivity.
Qed.

Lemma identity_call_all ls args : forall w,
  identity (world_of (call_all ls args w)) = identity w.
Proof.
  induction ls as [| l ls IH]; intros w; [reflexivity |].
  cbn [call_all]. unfold bind.
  assert (identity (world_of (call_listener l args w)) = identity w) as Hl.
  { destruct l; cbn [call_listener]; [apply identity_on_close | done ..]. }
  destruct (call_listener l args w) as [[] w' | e w']; cbn [world_of] in *.
  - rewrite IH. exact Hl.
  - exact Hl.
Qed.

(** The name, the path and the pattern of a proxy are those it was
    constructed with. *)
Lemma identity_run (l : list action) w : identity (run l w) = identity w.
Proof.
  apply (field_run (fun w' => identity w' = identity w) (fun _ => True));
    try done.
  - unfold outside_heap, identity. intros w1 w2 [= -> -> _ _ -> _ _]. done.
  - intros key args w' _ <-. unfold emit. apply identity_call_all.
  - apply Forall_true. done.
Qed.

End Identity.

Section StaysReady.

Import Lib.

Implicit Types (w : World).

Lemma ready_frame w w' :
  outside_heap w' = outside_heap w -> ready w' = ready w.
Proof.
  unfold outside_heap, ready. intros [= _ _ -> _ _ -> _]. reflexivity.
Qed.

(** Listeners other than the close handler leave the proxy as it is, up
    to the effects they log. *)
Lemma call_all_others ls args : forall w,
  close_handler ∉ ls ->
  ready (world_of (call_all ls args w)) = ready w
  /\ proxy_fields (world_of (call_all ls args w)) = proxy_fields w
  /\ connection (world_of (call_all ls args w)) = connection w
  /\ promises (world_of (call_all ls args w)) = promises w
  /\ jobs (world_of (call_all ls args w)) = jobs w.
Proof.
  induction ls as [| l ls IH]; intros w Hn; [done |].
  assert (close_handler ∉ ls) as Hn' by (intros ?; apply Hn; by right).
  cbn [call_all]. unfold bind.
  destruct l; cbn [call_listener].
  - exfalso. apply Hn. left.
  - cbn. destruct (IH (log (EmitEvent domainEvent args) w) Hn')
      as (-> & -> & -> & -> & ->). done.
  - cbn. destruct (IH (log (ForeignCall id args) w) Hn')
      as (-> & -> & -> & -> & ->). done.
Qed.

Lemma ready_and_inv_step (a : action) w :
  peaceful a -> ready w = true /\ proxy_inv w ->
  ready (step a w) = true /\ proxy_inv (step a w).
Proof.
  apply (field_step (fun w => ready w = true /\ proxy_inv w) peaceful).
  - intros w1 w2 E [Hr Hi]. split; [by rewrite (ready_frame _ _ E) |].
    by eapply proxy_inv_frame.
  - intros e w1 H. exact H.
  - intros evs w1 [Hr [H1 H2]]. split; [| split; [exact H1 |]].
    + unfold ready, connected in *. cbn.
      destruct (refresh_loop_tables (_domainName w1) evs (connection w1))
        as (-> & _ & _). exact Hr.
    + cbn. by apply close_only_refresh.
  - intros w1 [Hr [H1 H2]]. split; [| split; [done | exact H2]].
    unfold ready in *. cbn. by apply andb_true_iff in Hr as [_ ->].
  - intros key args w1 Hk [Hr [H1 H2]]. cbn in Hk. unfold emit.
    assert (close_handler ∉ getListeners key (connection w1)) as Hn
      by (intros Hin; apply Hk, H2, Hin).
    destruct (call_all_others _ args w1 Hn) as (Er & Ef & Ec & _ & _).
    split; [by rewrite Er |]. unfold proxy_inv.
    injection Ef as _ _ -> ->. rewrite Ec. done.
  - intros b ds evs w1 Hb [Hr [H1 H2]]. cbn in Hb. subst b.
    split; [| split; [exact H1 | exact H2]].
    unfold ready in *. cbn. by apply andb_true_iff in Hr as [-> _].
  - intros key id w1 _ [Hr [H1 H2]]. split; [exact Hr |].
    split; [exact H1 |]. intros k Hk. cbn in Hk.
    apply getListeners_on_foreign in Hk. auto.
Qed.

(** X5.  A proxy that is ready stays ready, with no readiness future,
    whatever its clients, the event loop and the Connection do, until the
    Connection fires [close] or reports itself disconnected. *)
Theorem ready_until_close w (l : list action)
    (Hreach : reachable w) (Hready : ready w = true)
    (Hl : Forall peaceful l) :
  ready (run l w) = true
  /\ _domainLoaded (run l w) = true
  /\ _connectionPromise (run l w) = None.
Proof.
  assert (ready (run l w) = true /\ proxy_inv (run l w)) as [Hr [Hi _]].
  { pose proof (reachable_proxy_inv w Hreach) as Hinv. clear Hreach.
    revert w Hready Hinv.
    induction l as [| a l IH]; intros w Hready Hinv; [done |].
    inversion_clear Hl as [| ? ? Ha Hl'].
    destruct (ready_and_inv_step a w Ha (conj Hready Hinv)).
    by apply IH. }
  split; [exact Hr |].
  unfold ready in Hr. apply andb_true_iff in Hr as [Hl' _].
  split; [exact Hl' | by apply Hi].
Qed.

Lemma ready_until_close_witness :
  let l := [call_exec "ping" [VNum 1]; tick; call_refreshInterface;
            env_emit "foo:changed" []; env_on "close" 3] in
  ready (run l Examples.ready_proxy) = true
  /\ _domainLoaded (run l Examples.ready_proxy) = true
  /\ _connectionPromise (run l Examples.ready_proxy) = None.
Proof.
  refine (ready_until_close Examples.ready_proxy _ _ _ _).
  - apply reachable_run; [apply reachable_fresh |]. repeat constructor.
  - vm_compute. reflexivity.
  - repeat constructor; discriminate.
Defined.

End StaysReady.

Section CloseHandler.

Import Lib.

Implicit Types (w : World).

(** X6.  The close handler of a proxy whose name has no pattern character,
    in any state of the proxy and called with a future: it removes the
    listeners under every key that starts with the name of the domain,
    whether a colon follows the name or not, and keeps the listeners
    under every other key; it leaves the proxy not ready, with a new
    readiness future. *)
Theorem close_handler_unsubscribes_by_name h domainName domainPath w0
    (l : list action) p rest k
    (Hlit : Regex.literal domainName)
    (Hnew : NodeDomain h domainName domainPath = Some w0) :
  let w := run l w0 in
  let w' := world_of (on_close (VPromise p :: rest) w) in
  ((exists suffix, k = domainName +:+ suffix) ->
     getListeners k (connection w') = [])
  /\ (~ (exists suffix, k = domainName +:+ suffix) ->
        getListeners k (connection w') = getListeners k (connection w))
  /\ ready w' = false
  /\ _connectionPromise w' = Some (length (promises w)).
Proof.
  cbn zeta.
  destruct (NodeDomain_literal h domainName domainPath w0 Hlit Hnew) as [Hn Hre].
  pose proof (identity_run l w0) as Hid. unfold identity in Hid.
  injection Hid as Hn' _ Hre'. rewrite Hn in Hn'. rewrite Hre, <- Hn' in Hre'.
  rewrite (close_handler_unsubscribes_name_prefix p rest k _ Hre'), Hn'.
  destruct (close_handler_resets p rest (run l w0)) as (_ & Hr & Hp & _).
  split; [| split; [| split; [exact Hr | exact Hp]]].
  - intros Hk. apply test_prefix_pattern in Hk. by rewrite Hk.
  - intros Hk. destruct (Regex.test _ k) eqn:T; [| reflexivity].
    apply test_prefix_pattern in T. contradiction.
Qed.

Lemma close_handler_unsubscribes_by_name_witness :
  let w := run [env_on "foobar:changed" 7; env_future] Examples.fresh in
  let w' := world_of (on_close (VPromise 5 :: []) w) in
  Regex.literal "foo"
  /\ getListeners "foobar:changed" (connection w) = [foreign 7]
  /\ getListeners "foobar:changed" (connection w') = [].
Proof.
  cbn zeta.
  assert (Regex.literal "foo") as Hlit.
  { repeat constructor; intros H; vm_compute in H;
      repeat (apply elem_of_cons in H as [H | H]; [discriminate H |]);
      by apply elem_of_nil in H. }
  split; [exact Hlit |]. split; [vm_compute; reflexivity |].
  refine (proj1 (close_handler_unsubscribes_by_name Examples.ordinary "foo"
                   "/domains/foo.js" Examples.fresh
                   [env_on "foobar:changed" 7; env_future] 5 []
                   "foobar:changed" Hlit _) _).
  - vm_compute. reflexivity.
  - exists "bar:changed". reflexivity.
Defined.

End CloseHandler.

Section Rejection.

Import Lib.

Implicit Types (w : World).

(** X7.  A deferred call fails with the readiness future: when the
    readiness future [p] is rejected with [e], a job without handler is
    scheduled for the future [r] of the call; it invokes nothing and
    rejects [r] with [e]. *)
Theorem deferred_exec_rejected_with_readiness h domainName domainPath w0
    (l0 : list action) name params p e
    (Hnew : NodeDomain h domainName domainPath = Some w0)
    (Hnr : ready (run l0 w0) = false)
    (Hp : _connectionPromise (run l0 w0) = Some p) :
  let w := run l0 w0 in
  let r := length (promises w) in
  let w1 := world_of (exec name params w) in
  let j := {| handler := None; input := Rejected e; target := r |} in
  (forall l, is_pending p (run l w1) = true ->
     j ∈ jobs (settle p (Rejected e) (run l w1)))
  /\ (outcome_of p w = Some (Rejected e) -> j ∈ jobs w1)
  /\ (forall w2, is_pending r w2 = true ->
        outcome_of r (run_job j w2) = Some (Rejected e)
        /\ trace (run_job j w2) = trace w2).
Proof.
  cbn zeta.
  destruct (constructed_run h domainName domainPath w0 l0 Hnew) as [Hra _].
  set (w := run l0 w0) in *. pose proof (Hra p Hp) as Hlt.
  rewrite (exec_deferred name params p w Hnr Hp). cbn [world_of].
  pose proof (registered_deferred name params p w Hlt) as Hreg.
  split; [| split].
  - intros l Hl.
    change {| handler := None; input := Rejected e;
              target := length (promises w) |}
      with (job_of (Rejected e)
              (deferred_reaction name params (length (promises w)))).
    apply registered_settle_job; [| exact Hl]. by apply registered_run.
  - intros Hv. unfold outcome_of in Hv. unfold subscribe.
    cbn [promises set_promises]. rewrite lookup_app_l by exact Hlt.
    destruct (promises w !! p) as [c |]; [| discriminate].
    destruct (state c); [discriminate |]. injection Hv as ->. cbn.
    apply elem_of_app. right. apply list_elem_of_singleton. reflexivity.
  - intros w2 Hr. unfold run_job. cbn [handler input target].
    split; [by apply outcome_of_settle | apply trace_settle].
Qed.

Lemma deferred_exec_rejected_with_readiness_witness :
  let w := run [] Examples.fresh in
  let r := length (promises w) in
  let w1 := world_of (exec "ping" [] w) in
  let j := {| handler := None; input := Rejected (VStr "refused");
              target := r |} in
  (forall l, is_pending 1 (run l w1) = true ->
     j ∈ jobs (settle 1 (Rejected (VStr "refused")) (run l w1)))
  /\ (outcome_of 1 w = Some (Rejected (VStr "refused")) -> j ∈ jobs w1)
  /\ (forall w2, is_pending r w2 = true ->
        outcome_of r (run_job j w2) = Some (Rejected (VStr "refused"))
        /\ trace (run_job j w2) = trace w2).
Proof.
  refine (deferred_exec_rejected_with_readiness Examples.ordinary "foo"
            "/domains/foo.js" Examples.fresh [] "ping" []
            1 (VStr "refused") _ _ _); vm_compute; reflexivity.
Defined.

End Rejection.

Section Startup.

Import Lib.

Implicit Types (w : World) (name path : string).

(** The state that the constructor leaves. *)
Lemma NodeDomain_world h name path w0 :
  NodeDomain h name path = Some w0 ->
  exists re,
    Regex.RegExp (compile h) ("^" +:+ name +:+ ":*") = Some re
    /\ w0 = {| _domainName := name; _domainPath := path;
               _domainLoaded := false; _connectionPromise := Some 1;
               domainPrefix := re;
               connection := on "close" close_handler new_NodeConnection;
               promises :=
                 [{| state := Pending [{| on_fulfilled := Some load;
                                          on_rejected := None; derived := 1 |}];
                     external := true |};
                  {| state := Pending []; external := false |}];
               jobs := []; trace := [Connect true 0]; host := h |}.
Proof.
  unfold NodeDomain. destruct (Regex.RegExp _) as [re |]; [| discriminate].
  intros [= <-]. exists re. split; reflexivity.
Qed.

Lemma run_app (l1 l2 : list action) w : run (l1 ++ l2) w = run l2 (run l1 w).
Proof. apply foldl_app. Qed.



(** X9.  The connection cannot be opened: the load step never runs, the
    readiness future is rejected with the error of the connection, and so
    is the future of a call of [exec] made meanwhile, without the command
    table being consulted. *)
Theorem failed_connect_rejects_readiness h name path w0 e cmd params
    (Hnew : NodeDomain h name path = Some w0) :
  let w := run (call_exec cmd params :: fails_to_connect e ++ [tick]) w0 in
  ready w = false
  /\ _connectionPromise w = Some 1
  /\ outcome_of 1 w = Some (Rejected e)
  /\ outcome_of 2 w = Some (Rejected e)
  /\ all_settled w = true
  /\ jobs w = []
  /\ trace w = [Connect true 0]
  /\ promise w = Return 1 w.
Proof.
  apply NodeDomain_world in Hnew as (re & _ & ->). cbn zeta.
  repeat (apply conj; [vm_compute; reflexivity |]). vm_compute. reflexivity.
Qed.

Lemma failed_connect_rejects_readiness_witness :
  let w := run (call_exec "ping" [] :: fails_to_connect (VStr "refused")
                ++ [tick]) Examples.fresh in
  ready w = false
  /\ _connectionPromise w = Some 1
  /\ outcome_of 1 w = Some (Rejected (VStr "refused"))
  /\ outcome_of 2 w = Some (Rejected (VStr "refused"))
  /\ all_settled w = true
  /\ jobs w = []
  /\ trace w = [Connect true 0]
  /\ promise w = Return 1 w.
Proof.
  refine (failed_connect_rejects_readiness Examples.ordinary "foo"
            "/domains/foo.js" Examples.fresh (VStr "refused") "ping" [] _).
  vm_compute. reflexivity.
Defined.

End Startup.

Section Loading.

Import Lib.

Implicit Types (w : World) (name path : string).


(** The same job when the Connection lists none: [Object.keys] throws. *)
Lemma run_load_done_job_no_events v q w :
  events_of w = None ->
  run_job {| handler := Some load_done; input := Fulfilled v; target := q |} w
  = settle q (Rejected (VError "TypeError"))
      (set_connectionPromise None (set_loaded true w)).
Proof.
  intros Hev. unfold run_job. cbn [handler input target call outcome_value].
  unfold bind, update, ret, refreshInterface.
  change (events_of (set_connectionPromise None (set_loaded true w)))
    with (events_of w).
  rewrite Hev. reflexivity.
Qed.

Lemma step_tick_cons j js w :
  jobs w = j :: js -> step tick w = run_job j (set_jobs js w).
Proof. intros H. cbn [step]. rewrite H. reflexivity. Qed.



(** X11.  The load succeeds but the Connection lists no events for the
    domain: [refreshInterface] throws inside the success callback, after
    the two fields have been assigned.  The failure branch logs the
    TypeError as a load error; all the same the proxy counts as loaded,
    with no readiness future and no relay. *)
Theorem load_without_events_logs_error h name path w0 b ds evs
    (Hnew : NodeDomain h name path = Some w0)
    (Hev : evs !! name = None)
    (Hin : inherited h name = None) :
  let w := run (connects b ds evs ++ loads) w0 in
  _domainLoaded w = true
  /\ ready w = b
  /\ _connectionPromise w = None
  /\ outcome_of 1 w = Some (Fulfilled VUndefined)
  /\ all_settled w = true
  /\ jobs w = []
  /\ trace w = [Connect true 0; LoadDomains path true 2;
                ConsoleError name (VError "TypeError")]
  /\ events (connection w) = events (connection w0).
Proof.
  apply NodeDomain_world in Hnew as (re & _ & ->). cbn zeta.
  remember (on "close" close_handler new_NodeConnection) as c0 eqn:Hc0.
  unfold connects, loads. cbn [app]. unfold run. cbn [foldl].
  match goal with
  | |- context [step tick (step tick (step tick ?x))] =>
      let t := eval vm_compute in x in
      replace x with t by (vm_compute; reflexivity)
  end.
  match goal with
  | |- context [step tick (step tick (step tick ?x))] => set (t0 := x)
  end.
  rewrite (step_tick_cons {| handler := Some load_done;
                             input := Fulfilled VUndefined; target := 3 |}
             [] t0) by reflexivity.
  rewrite run_load_done_job_no_events
    by (unfold events_of; cbn; rewrite Hev, Hin; reflexivity).
  subst t0.
  match goal with
  | |- context [step tick (step tick ?x)] =>
      let t := eval vm_compute in (step tick (step tick x)) in
      replace (step tick (step tick x)) with t by (vm_compute; reflexivity)
  end.
  cbn [_domainLoaded _connectionPromise jobs trace connection events].
  repeat (split; [reflexivity |]). reflexivity.
Qed.

Lemma load_without_events_logs_error_witness :
  let w := run (connects true Examples.foo_commands ∅ ++ loads)
             Examples.fresh in
  _domainLoaded w = true
  /\ ready w = true
  /\ _connectionPromise w = None
  /\ outcome_of 1 w = Some (Fulfilled VUndefined)
  /\ all_settled w = true
  /\ jobs w = []
  /\ trace w = [Connect true 0; LoadDomains "/domains/foo.js" true 2;
                ConsoleError "foo" (VError "TypeError")]
  /\ events (connection w) = events (connection Examples.fresh).
Proof.
  refine (load_without_events_logs_error Examples.ordinary "foo"
            "/domains/foo.js" Examples.fresh true Examples.foo_commands ∅
            _ _ _); vm_compute; reflexivity.
Defined.

End Loading.
